(** * LRUCache.js: a shallow embedding and its verification

    The cache of [src/LRUCache.js] is a JavaScript object holding a key
    index ([__keys], a plain object used as a map), the two ends of a
    doubly-linked recency chain ([__oldest], [__newest]) and three counters.
    The chain nodes are heap objects [{key, value, older, newer}] that are
    mutated in place and shared between the index and the chain, so the
    embedding keeps an explicit store of entries addressed by their
    allocation number.

    The index is a plain object: a lookup [this.__keys[key]] that finds no
    own property goes on to the prototype of the index, which is
    [Object.prototype] until [put('__proto__', v)] replaces it by an entry.
    What such a lookup returns (a built-in function, [Object.prototype]
    itself, a field of an entry) is then handled by [get] like an entry,
    so the embedding covers property reads and writes on every kind of
    value the code can meet:
    - an entry has its four own fields;
    - a built-in function, [Object.prototype] and an object of the caller
      have the own [older] and [newer] that the code has written on them,
      and inherit those of [Object.prototype];
    - a primitive inherits from [Object.prototype]; a write on it is
      ignored (the module is not in strict mode);
    - on [undefined] and [null] a read or a write raises a [TypeError].

    Scope of the model:
    - keys are strings, the property keys that JavaScript coerces them to;
    - numbers are integers ([Z]), which is what the counters hold;
    - [Object.prototype] has the members of the ECMAScript standard with
      its Annex B, and no other code changes it;
    - an object of the caller that is stored as a value is a plain
      extensible object without own [key], [value], [older] or [newer];
    - a loop that does not end is the result [None]. *)

From stdpp Require Import gmap strings list fin_maps.

Open Scope Z_scope.

(** ** JavaScript values *)

(** A reference to an entry object: its number in the store. *)
Abbreviation addr := nat.

Inductive jsval : Type :=
  | VUndef
  | VNull
  | VBool (b : bool)
  | VNum (n : Z)
  | VStr (s : string)
  | VObj (id : positive)      (* an object of the caller, opaque to the cache *)
  | VEntry (a : addr)         (* a cache entry object, by its store address *)
  | VFun (name : string)      (* the function [Object.prototype[name]] *)
  | VObjectPrototype.         (* [Object.prototype] itself *)

#[global] Instance jsval_eq_dec : EqDecision jsval.
Proof. solve_decision. Defined.
#[global] Arguments jsval_eq_dec : simpl never.

(** ToBoolean. *)
Definition truthy (v : jsval) : bool :=
  match v with
  | VUndef | VNull => false
  | VBool b => b
  | VNum n => negb (n =? 0)
  | VStr s => negb (String.eqb s "")
  | VObj _ | VEntry _ | VFun _ | VObjectPrototype => true
  end.

(** [a || b] *)
Definition js_or (a b : jsval) : jsval := if truthy a then a else b.

(** [undefined] and [null]: the values without properties. *)
Definition nullish (v : jsval) : bool :=
  match v with
  | VUndef | VNull => true
  | _ => false
  end.

(** The data members of [Object.prototype]: functions, by name.
    [__proto__] is its one accessor. *)
Definition object_prototype_functions : list string :=
  ["constructor"; "hasOwnProperty"; "isPrototypeOf"; "propertyIsEnumerable";
   "toLocaleString"; "toString"; "valueOf";
   "__defineGetter__"; "__defineSetter__";
   "__lookupGetter__"; "__lookupSetter__"].

(** The objects other than entries on which the code can come to write. *)
Inductive foreign : Type :=
  | FFun (name : string)
  | FUser (id : positive)
  | FObjectPrototype.

#[global] Instance foreign_eq_dec : EqDecision foreign.
Proof. solve_decision. Defined.

Definition foreign_encode (r : foreign) : string + positive + unit :=
  match r with
  | FFun s => inl (inl s)
  | FUser p => inl (inr p)
  | FObjectPrototype => inr tt
  end.

Definition foreign_decode (x : string + positive + unit) : foreign :=
  match x with
  | inl (inl s) => FFun s
  | inl (inr p) => FUser p
  | inr _ => FObjectPrototype
  end.

#[global] Instance foreign_countable : Countable foreign.
Proof.
  refine (inj_countable' foreign_encode foreign_decode _). by intros [].
Defined.

Definition foreign_of (v : jsval) : option foreign :=
  match v with
  | VFun s => Some (FFun s)
  | VObj p => Some (FUser p)
  | VObjectPrototype => Some FObjectPrototype
  | _ => None
  end.

(** ** Cache entries, the heap and the cache object *)

Record Entry : Type := mkEntry {
  key   : string;
  value : jsval;
  older : jsval;
  newer : jsval
}.

Definition createCacheEntry (key : string) (value : jsval)
    (older newer : jsval) : Entry :=
  {| key := key; value := value; older := older; newer := newer |}.

Definition with_older (o : jsval) (e : Entry) : Entry :=
  {| key := key e; value := value e; older := o; newer := newer e |}.

Definition with_newer (n : jsval) (e : Entry) : Entry :=
  {| key := key e; value := value e; older := older e; newer := n |}.

(** The state: the part of the heap the code works on, and the fields of
    the cache object. *)
Record Cache : Type := mkCache {
  store       : list Entry;          (* the entry objects allocated so far *)
  links_older : gmap foreign jsval;  (* own [older] of the other objects *)
  links_newer : gmap foreign jsval;  (* own [newer] of the other objects *)
  __maxSize   : jsval;
  __size      : Z;
  __keys      : gmap string addr;    (* own properties of the index *)
  keys_proto  : option addr;         (* prototype of the index: an entry,
                                        or [Object.prototype] for [None] *)
  __oldest    : jsval;
  __newest    : jsval;
  __hits      : Z;
  __misses    : Z
}.

(** Field writes. *)
Definition set_store (h : list Entry) (c : Cache) : Cache :=
  mkCache h (links_older c) (links_newer c) (__maxSize c) (__size c)
          (__keys c) (keys_proto c) (__oldest c) (__newest c)
          (__hits c) (__misses c).
Definition set_links_older (m : gmap foreign jsval) (c : Cache) : Cache :=
  mkCache (store c) m (links_newer c) (__maxSize c) (__size c)
          (__keys c) (keys_proto c) (__oldest c) (__newest c)
          (__hits c) (__misses c).
Definition set_links_newer (m : gmap foreign jsval) (c : Cache) : Cache :=
  mkCache (store c) (links_older c) m (__maxSize c) (__size c)
          (__keys c) (keys_proto c) (__oldest c) (__newest c)
          (__hits c) (__misses c).
Definition set_size (n : Z) (c : Cache) : Cache :=
  mkCache (store c) (links_older c) (links_newer c) (__maxSize c) n
          (__keys c) (keys_proto c) (__oldest c) (__newest c)
          (__hits c) (__misses c).
Definition set_keys (m : gmap string addr) (c : Cache) : Cache :=
  mkCache (store c) (links_older c) (links_newer c) (__maxSize c) (__size c)
          m (keys_proto c) (__oldest c) (__newest c)
          (__hits c) (__misses c).
Definition set_keys_proto (p : option addr) (c : Cache) : Cache :=
  mkCache (store c) (links_older c) (links_newer c) (__maxSize c) (__size c)
          (__keys c) p (__oldest c) (__newest c)
          (__hits c) (__misses c).
Definition set_oldest (o : jsval) (c : Cache) : Cache :=
  mkCache (store c) (links_older c) (links_newer c) (__maxSize c) (__size c)
          (__keys c) (keys_proto c) o (__newest c)
          (__hits c) (__misses c).
Definition set_newest (n : jsval) (c : Cache) : Cache :=
  mkCache (store c) (links_older c) (links_newer c) (__maxSize c) (__size c)
          (__keys c) (keys_proto c) (__oldest c) n
          (__hits c) (__misses c).
Definition set_hits (n : Z) (c : Cache) : Cache :=
  mkCache (store c) (links_older c) (links_newer c) (__maxSize c) (__size c)
          (__keys c) (keys_proto c) (__oldest c) (__newest c)
          n (__misses c).
Definition set_misses (n : Z) (c : Cache) : Cache :=
  mkCache (store c) (links_older c) (links_newer c) (__maxSize c) (__size c)
          (__keys c) (keys_proto c) (__oldest c) (__newest c)
          (__hits c) n.

(** Reading an entry object.  A reference held by a JavaScript program
    always points to an allocated object; the default is never read on a
    state the program can reach. *)
Definition null_entry : Entry := createCacheEntry "" VUndef VUndef VUndef.

Definition deref (c : Cache) (a : addr) : Entry :=
  default null_entry (store c !! a).

(** ** Property reads and writes *)

Inductive field : Type := FKey | FValue | FOlder | FNewer.

Definition field_of_name (k : string) : option field :=
  if String.eqb k "key" then Some FKey
  else if String.eqb k "value" then Some FValue
  else if String.eqb k "older" then Some FOlder
  else if String.eqb k "newer" then Some FNewer
  else None.

(** [Object.prototype.older] and [Object.prototype.newer], which every
    object and every primitive inherits once the code has written them. *)
Definition inherited (f : field) (c : Cache) : jsval :=
  match f with
  | FOlder => default VUndef (links_older c !! FObjectPrototype)
  | FNewer => default VUndef (links_newer c !! FObjectPrototype)
  | FKey | FValue => VUndef
  end.

(** [x.f] for [x] that is neither [undefined] nor [null]. *)
Definition get_field (f : field) (c : Cache) (x : jsval) : jsval :=
  match x with
  | VEntry a =>
    match f with
    | FKey => VStr (key (deref c a))
    | FValue => value (deref c a)
    | FOlder => older (deref c a)
    | FNewer => newer (deref c a)
    end
  | _ =>
    let own :=
      match f with
      | FOlder => foreign_of x ≫= (links_older c !!.)
      | FNewer => foreign_of x ≫= (links_newer c !!.)
      | FKey | FValue => None
      end in
    default (inherited f c) own
  end.

(** [x.older = v] and [x.newer = v] for [x] that is neither [undefined] nor
    [null]: on a primitive the write is dropped. *)
Definition put_older (x v : jsval) (c : Cache) : Cache :=
  match x with
  | VEntry a => set_store (alter (with_older v) a (store c)) c
  | _ =>
    match foreign_of x with
    | Some r => set_links_older (<[r := v]> (links_older c)) c
    | None => c
    end
  end.

Definition put_newer (x v : jsval) (c : Cache) : Cache :=
  match x with
  | VEntry a => set_store (alter (with_newer v) a (store c)) c
  | _ =>
    match foreign_of x with
    | Some r => set_links_newer (<[r := v]> (links_newer c)) c
    | None => c
    end
  end.

(** ** Computations that may raise *)

Inductive completion (A : Type) : Type :=
  | Normal (a : A)
  | Raised.                   (* a [TypeError], or what a visitor throws *)
Arguments Normal {A} a.
Arguments Raised {A}.

#[global] Instance completion_eq_dec `{EqDecision A} : EqDecision (completion A).
Proof. solve_decision. Defined.

(** A statement sequence: from a state to the state it leaves and its
    completion.  After [Raised] the rest is skipped and the state is the one
    at the point of the exception. *)
Definition M (A : Type) : Type := Cache → Cache * completion A.

#[global] Instance M_ret : MRet M := λ A a c, (c, Normal a).

#[global] Instance M_bind : MBind M := λ A B f m c,
  match m c with
  | (c', Normal a) => f a c'
  | (c', Raised) => (c', Raised)
  end.

(** Read of a field of [this], and update of [this]. *)
Definition this {A} (f : Cache → A) : M A := λ c, (c, Normal (f c)).
Definition update (f : Cache → Cache) : M unit := λ c, (f c, Normal tt).

(** [x.f], [x.older = v] and [x.newer = v] with their [TypeError]. *)
Definition rd (f : field) (x : jsval) : M jsval :=
  λ c, if nullish x then (c, Raised) else (c, Normal (get_field f c x)).

Definition wr_older (x v : jsval) : M unit :=
  λ c, if nullish x then (c, Raised) else (put_older x v c, Normal tt).

Definition wr_newer (x v : jsval) : M unit :=
  λ c, if nullish x then (c, Raised) else (put_newer x v c, Normal tt).

Definition when (b : bool) (m : M unit) : M unit := if b then m else mret tt.

(** ** The index *)

(** [Object.prototype[k]] for [k] other than [__proto__]. *)
Definition object_prototype_get (k : string) (c : Cache) : jsval :=
  if bool_decide (k ∈ object_prototype_functions) then VFun k
  else match field_of_name k with
       | Some f => inherited f c
       | None => VUndef
       end.

(** [this.__keys[k]]: own properties first, then the prototype chain of
    the index; [__proto__] is the accessor that returns its prototype. *)
Definition index_get (k : string) (c : Cache) : jsval :=
  if String.eqb k "__proto__" then
    match keys_proto c with
    | Some e => VEntry e
    | None => VObjectPrototype
    end
  else
    match __keys c !! k with
    | Some a => VEntry a
    | None =>
      match keys_proto c, field_of_name k with
      | Some e, Some f => get_field f c (VEntry e)
      | _, _ => object_prototype_get k c
      end
    end.

(** [this.__keys[k] = entry]: the accessor [__proto__] sets the prototype
    of the index, any other key becomes an own property. *)
Definition index_set (k : string) (entry : addr) (c : Cache) : Cache :=
  if String.eqb k "__proto__" then set_keys_proto (Some entry) c
  else set_keys (<[k := entry]> (__keys c)) c.

(** [delete this.__keys[k]] removes an own property only. *)
Definition index_delete (k : string) (c : Cache) : Cache :=
  if String.eqb k "__proto__" then c
  else set_keys (delete k (__keys c)) c.

(** The property key that [entry.key] stands for: a string, or the string
    ['undefined'] when the object has no [key]. *)
Definition property_key (v : jsval) : string :=
  match v with
  | VStr s => s
  | _ => "undefined"
  end.

(** Allocation of a new entry object. *)
Definition alloc (e : Entry) : M addr :=
  λ c, (set_store (store c ++ [e]) c, Normal (length (store c))).

(** ** The operations *)

(** [initLRU(config)] on a new object, in the heap of [h]; [maxSize] is the
    value read from [config.maxSize] ([VUndef] when the option is
    omitted). *)
Definition initLRU_in (h : Cache) (maxSize : jsval) : Cache :=
  {| store := store h;
     links_older := links_older h;
     links_newer := links_newer h;
     __maxSize := js_or maxSize (VNum 4);
     __size := 0;
     __keys := ∅;
     keys_proto := None;
     __oldest := VNull;
     __newest := VNull;
     __hits := 0;
     __misses := 0 |}.

(** The heap of a program that has not used a cache yet. *)
Definition fresh_heap : Cache :=
  {| store := []; links_older := ∅; links_newer := ∅;
     __maxSize := VUndef; __size := 0; __keys := ∅; keys_proto := None;
     __oldest := VUndef; __newest := VUndef; __hits := 0; __misses := 0 |}.

Definition initLRU (maxSize : jsval) : Cache := initLRU_in fresh_heap maxSize.

Definition get (key : string) : M jsval :=
  entry ← this (index_get key) ;
  if decide (entry = VUndef) then
    update (λ c, set_misses (__misses c + 1) c) ;;
    mret VUndef
  else
    newest ← this __newest ;
    if decide (entry = newest) then
      update (λ c, set_hits (__hits c + 1) c) ;;
      rd FValue entry
    else
      n ← rd FNewer entry ;
      when (truthy n) (
        oldest ← this __oldest ;
        when (bool_decide (entry = oldest)) (
          n ← rd FNewer entry ;
          update (set_oldest n)) ;;
        n ← rd FNewer entry ;
        o ← rd FOlder entry ;
        wr_older n o) ;;
      o ← rd FOlder entry ;
      when (truthy o) (
        o ← rd FOlder entry ;
        n ← rd FNewer entry ;
        wr_newer o n) ;;
      wr_newer entry VNull ;;
      newest ← this __newest ;
      wr_older entry newest ;;
      newest ← this __newest ;
      when (truthy newest) (wr_newer newest entry) ;;
      update (set_newest entry) ;;
      update (λ c, set_hits (__hits c + 1) c) ;;
      rd FValue entry.

Definition put (key : string) (value : jsval) : M jsval :=
  oldEntry ← this __newest ;
  a ← alloc (createCacheEntry key value oldEntry VNull) ;
  let entry := VEntry a in
  update (index_set key a) ;;
  (if truthy oldEntry
   then wr_newer oldEntry entry
   else update (set_oldest entry)) ;;
  update (set_newest entry) ;;
  size ← this __size ;
  maxSize ← this __maxSize ;
  if decide (VNum size = maxSize) then
    removedEntry ← this __oldest ;
    n ← rd FNewer removedEntry ;
    update (set_oldest n) ;;
    oldest ← this __oldest ;
    wr_older oldest VNull ;;
    wr_newer removedEntry VNull ;;
    wr_older removedEntry VNull ;;
    k ← rd FKey removedEntry ;
    update (index_delete (property_key k)) ;;
    rd FValue removedEntry
  else
    update (λ c, set_size (__size c + 1) c) ;;
    mret VUndef.

Definition clearAll (c : Cache) : Cache :=
  let c := set_size 0 c in
  let c := set_hits 0 c in
  let c := set_misses 0 c in
  let c := set_oldest VNull c in
  let c := set_newest VNull c in
  let c := set_keys ∅ c in
  set_keys_proto None c.

Definition size (c : Cache) : Z := __size c.
Definition hits (c : Cache) : Z := __hits c.
Definition misses (c : Cache) : Z := __misses c.

(** The traversals are [while (entry)] loops over the [older] links; a
    truthy [entry] has properties, so nothing is raised.  A loop that is
    still running when the fuel is spent is [None]. *)
Fixpoint keys_loop (fuel : nat) (c : Cache) (entry : jsval)
    (keys : list jsval) : option (list jsval) :=
  if truthy entry then
    match fuel with
    | O => None
    | S fuel =>
      keys_loop fuel c (get_field FOlder c entry)
                (keys ++ [get_field FKey c entry])
    end
  else Some keys.

Fixpoint values_loop (fuel : nat) (c : Cache) (entry : jsval)
    (vals : list jsval) : option (list jsval) :=
  if truthy entry then
    match fuel with
    | O => None
    | S fuel =>
      values_loop fuel c (get_field FOlder c entry)
                  (vals ++ [get_field FValue c entry])
    end
  else Some vals.

(** A walk over the [older] links that meets no node twice has at most this
    many nodes: the entries, the other objects with an [older] of their own,
    and two more. *)
Definition enough (c : Cache) : nat :=
  (length (store c) + length (map_to_list (links_older c)) + 3)%nat.

Definition keys (c : Cache) : option (list jsval) :=
  keys_loop (enough c) c (__newest c) [].

Definition values (c : Cache) : option (list jsval) :=
  values_loop (enough c) c (__newest c) [].

(** A call of the visitor: the receiver bound by [fn.call] ([None] for the
    plain call [fn(...)]) and the argument list. *)
Record Call : Type := mkCall {
  receiver : option jsval;
  args     : list jsval
}.

(** The visitor is code of the caller: from its own state [W] and the
    present state of the heap and the cache, which it may change (it can
    call the cache), to the new ones, or to an exception. *)
Section ForEach.
Context {W : Type}.
Variable fn : Call → W → M W.
Variable context : jsval.

Fixpoint forEach_loop (fuel : nat) (entry : jsval) (s : W) (c : Cache)
    : option (Cache * completion W) :=
  if truthy entry then
    match fuel with
    | O => None
    | S fuel =>
      let call :=
        if truthy context
        then mkCall (Some context) [get_field FValue c entry]
        else mkCall None [get_field FValue c entry] in
      match fn call s c with
      | (c, Normal s) => forEach_loop fuel (get_field FOlder c entry) s c
      | (c, Raised) => Some (c, Raised)
      end
    end
  else Some (c, Normal s).
End ForEach.

Definition forEach {W} (fn : Call → W → M W) (context : jsval) (fuel : nat)
    (s : W) (c : Cache) : option (Cache * completion W) :=
  forEach_loop fn context fuel (__newest c) s c.

(** [peek] returns what the index lookup gives: the entry object itself. *)
Definition peek (k : string) (c : Cache) : jsval := index_get k c.

(** ** The factory *)

(** The argument of [create]. *)
Inductive Config : Type :=
  | ConfigOmitted                       (* no argument, [undefined] or [null] *)
  | ConfigPrimitive (v : jsval)         (* a value whose [typeof] is not 'object' *)
  | ConfigObject (maxSize : jsval).     (* an object; its [maxSize] property *)

(** The object [create] returns: [initLRU] has run on it or it has none of
    the cache's fields. *)
Inductive Obj : Type :=
  | Uninitialised
  | Initialised (c : Cache).

Definition create (config : Config) : Obj :=
  match config with
  | ConfigObject maxSize => Initialised (initLRU maxSize)
  | _ => Uninitialised
  end.

(** The accessors on the returned object: a missing field reads as
    [undefined]. *)
Definition obj_field (f : Cache → jsval) (o : Obj) : jsval :=
  match o with
  | Uninitialised => VUndef
  | Initialised c => f c
  end.

Definition obj_maxSize : Obj → jsval := obj_field __maxSize.
Definition obj_size : Obj → jsval := obj_field (λ c, VNum (size c)).
Definition obj_hits : Obj → jsval := obj_field (λ c, VNum (hits c)).
Definition obj_misses : Obj → jsval := obj_field (λ c, VNum (misses c)).

(** ** Sequences of operations *)

Inductive Op : Type :=
  | OGet (k : string)
  | OPut (k : string) (v : jsval)
  | OPeek (k : string)
  | OForEach
  | OClearAll
  | OSize
  | OKeys
  | OValues
  | OHits
  | OMisses.

(** One operation: the state it leaves and whether it returned.  Only
    [get], [put] and [clearAll] write.  A traversal leaves the state it
    found; the calls that a visitor of [forEach] makes on the cache are
    operations of the sequence in their own right.  When a traversal does
    not end there is no later operation, so the states of the sequences
    include all those a program can reach. *)
Definition exec (o : Op) (c : Cache) : Cache * completion unit :=
  match o with
  | OGet k => (get k ;; mret tt) c
  | OPut k v => (put k v ;; mret tt) c
  | OClearAll => (clearAll c, Normal tt)
  | OPeek _ | OForEach | OSize | OKeys | OValues | OHits | OMisses =>
    (c, Normal tt)
  end.

(** The state after a sequence of operations, the caller going on after an
    operation that raises. *)
Fixpoint run (ops : list Op) (c : Cache) : Cache :=
  match ops with
  | [] => c
  | o :: ops => run ops (exec o c).1
  end.


(** ** The operations as state functions *)

(** The relinking done by [get] on an [entry] that has properties and is
    not the newest one, in its three steps: the newer neighbour is linked
    to the older one, the older one to the newer one, and the entry is
    appended as the newest. *)
Definition unlink_newer (entry : jsval) (c : Cache) : Cache :=
  if truthy (get_field FNewer c entry) then
    let c :=
      if bool_decide (entry = __oldest c)
      then set_oldest (get_field FNewer c entry) c else c in
    put_older (get_field FNewer c entry) (get_field FOlder c entry) c
  else c.

Definition unlink_older (entry : jsval) (c : Cache) : Cache :=
  if truthy (get_field FOlder c entry)
  then put_newer (get_field FOlder c entry) (get_field FNewer c entry) c
  else c.

Definition append_newest (entry : jsval) (c : Cache) : Cache :=
  let c := put_newer entry VNull c in
  let c := put_older entry (__newest c) c in
  let c :=
    if truthy (__newest c) then put_newer (__newest c) entry c else c in
  set_newest entry c.

Definition get_promote (entry : jsval) (c : Cache) : Cache :=
  append_newest entry (unlink_older entry (unlink_newer entry c)).

(** The two halves of [put]: the state once the new entry is linked in as
    the newest, and the removal of the oldest entry. *)
Definition put_insert (k : string) (v : jsval) (c : Cache) : Cache :=
  let oldEntry := __newest c in
  let a := length (store c) in
  let c := set_store (store c ++ [createCacheEntry k v oldEntry VNull]) c in
  let c := index_set k a c in
  let c :=
    if truthy oldEntry then put_newer oldEntry (VEntry a) c
    else set_oldest (VEntry a) c in
  set_newest (VEntry a) c.

Definition put_remove (removedEntry : jsval) (c : Cache) : Cache :=
  let c := put_older (__oldest c) VNull c in
  let c := put_newer removedEntry VNull c in
  let c := put_older removedEntry VNull c in
  index_delete (property_key (get_field FKey c removedEntry)) c.

Definition put_evict (c : Cache) : Cache * completion jsval :=
  let removedEntry := __oldest c in
  if nullish removedEntry then (c, Raised) else
  let c := set_oldest (get_field FNewer c removedEntry) c in
  if nullish (__oldest c) then (c, Raised) else
  let c := put_remove removedEntry c in
  (c, Normal (get_field FValue c removedEntry)).

(** The capacity and the counters of a cache. *)
Definition counters (c : Cache) : jsval * Z * Z * Z :=
  (__maxSize c, __size c, __hits c, __misses c).

(** The completions of a sequence of operations. *)
Fixpoint completions (ops : list Op) (c : Cache) : list (completion unit) :=
  match ops with
  | [] => []
  | o :: ops => (exec o c).2 :: completions ops (exec o c).1
  end.

(** ** The recency chain as a representation invariant *)

(** A link field that holds an entry or [null]. *)
Definition ref (o : option addr) : jsval :=
  match o with
  | Some a => VEntry a
  | None => VNull
  end.

(** The first element of [l], or [d] when [l] is empty; likewise the last. *)
Definition first_or (l : list addr) (d : option addr) : option addr :=
  match l with
  | [] => d
  | a :: _ => Some a
  end.

Definition last_or (l : list addr) (d : option addr) : option addr :=
  match last l with
  | Some a => Some a
  | None => d
  end.

(** [dseg h prev l next]: the entries at the addresses [l] are linked in
    this order, oldest first; the first one's [older] is [prev] and the last
    one's [newer] is [next]. *)
Fixpoint dseg (h : list Entry) (prev : option addr) (l : list addr)
    (next : option addr) : Prop :=
  match l with
  | [] => True
  | a :: t =>
    ∃ e, h !! a = Some e ∧ older e = ref prev ∧
         newer e = ref (first_or t next) ∧ dseg h (Some a) t next
  end.

(** A key that names no member of [Object.prototype]: a lookup of it in
    the index finds an own property or nothing, as long as no entry has
    been made the prototype of the index and [Object.prototype] has been
    given no [older] or [newer]. *)
Definition plain_key (k : string) : bool :=
  negb (String.eqb k "__proto__") &&
  bool_decide (k ∉ object_prototype_functions).

(** The index and the two ends of a cache whose chain is [l], oldest
    first: every indexed entry is on the chain, under its own key; the
    keys on the chain are plain; the index has the prototype it was
    created with, and [Object.prototype] has no link fields. *)
Record linked (c : Cache) (l : list addr) : Prop := mkLinked {
  linked_nodup  : NoDup l;
  linked_links  : dseg (store c) None l None;
  linked_oldest : __oldest c = ref (head l);
  linked_newest : __newest c = ref (last l);
  linked_index  : ∀ k a, __keys c !! k = Some a → a ∈ l ∧ key (deref c a) = k;
  linked_keys   : ∀ a, a ∈ l → plain_key (key (deref c a)) = true;
  linked_proto  : keys_proto c = None;
  linked_older  : links_older c !! FObjectPrototype = None;
  linked_newer  : links_newer c !! FObjectPrototype = None
}.

Record chain_inv (c : Cache) (l : list addr) : Prop := mkChainInv {
  inv_linked  : linked c l;
  inv_size    : __size c = Z.of_nat (length l);
  inv_maxSize : truthy (__maxSize c) = true
}.

(** The operations on keys that name no member of [Object.prototype]. *)
Definition plain_op (o : Op) : bool :=
  match o with
  | OGet k | OPut k _ | OPeek k => plain_key k
  | _ => true
  end.

(** A visitor that reads the cache but neither writes it nor raises. *)
Definition observer {W} (f : Call → W → Cache → W) : Call → W → M W :=
  λ call s c, (c, Normal (f call s c)).

(** The visitor that records its calls. *)
Definition record_call (call : Call) (log : list Call) : list Call :=
  log ++ [call].

(** The visitor that records its calls and does nothing else. *)
Definition recorder : Call → list Call → M (list Call) :=
  observer (λ call log _, record_call call log).

(** A visitor that records its call and looks a key up in the cache it is
    visiting. *)
Definition looking_up (k : string) : Call → list Call → M (list Call) :=
  λ call log, get k ;; mret (record_call call log).

(** A cache whose [older] links form a cycle: the entry of [a], the
    function [Object.prototype.toString] and [Object.prototype]. *)
Definition cyclic_cache : Cache :=
  run [OPut "a" (VNum 1); OGet "__proto__"; OGet "toString"; OGet "a"]
      (initLRU (VNum 4)).

(** A cache holding [c], [b], [a], newest first. *)
Definition cache_cba : Cache :=
  run [OPut "a" (VNum 1); OPut "b" (VNum 2); OPut "c" (VNum 3)]
      (initLRU (VNum 4)).

(** ** Definitions for the further properties *)

(** The index of a cache: its own properties and its prototype. *)
Definition index_of (c : Cache) : gmap string addr * option addr :=
  (__keys c, keys_proto c).

(** The states a caller brings a new cache into by operations on keys that
    name no member of [Object.prototype]. *)
Definition reachable (c : Cache) : Prop :=
  ∃ maxSize ops,
    forallb plain_op ops = true ∧ c = run ops (initLRU maxSize).

(** The number of [get] calls since construction or the last [clearAll],
    and likewise of [put] calls, on top of the count [n] so far. *)
Fixpoint gets_since_clear (ops : list Op) (n : Z) : Z :=
  match ops with
  | [] => n
  | OGet _ :: ops => gets_since_clear ops (n + 1)
  | OClearAll :: ops => gets_since_clear ops 0
  | _ :: ops => gets_since_clear ops n
  end.

Fixpoint puts_since_clear (ops : list Op) (n : Z) : Z :=
  match ops with
  | [] => n
  | OPut _ _ :: ops => puts_since_clear ops (n + 1)
  | OClearAll :: ops => puts_since_clear ops 0
  | _ :: ops => puts_since_clear ops n
  end.

(** A sequence of operations, run from [c], in which no [put] is on a key
    that the index holds at that moment. *)
Fixpoint overwrite_free (ops : list Op) (c : Cache) : bool :=
  match ops with
  | [] => true
  | o :: ops =>
    match o with
    | OPut k _ => bool_decide (__keys c !! k = None)
    | _ => true
    end && overwrite_free ops (exec o c).1
  end.

(** Every entry of the chain [l] is the one the index holds for its key. *)
Definition fully_indexed (c : Cache) (l : list addr) : Prop :=
  ∀ a, a ∈ l → __keys c !! key (deref c a) = Some a.

(** What [get] returns for a key, the counters aside. *)
Definition found (k : string) (c : Cache) : completion jsval := (get k c).2.

(** Two caches used as concrete instances: one with room left, one full. *)
Definition cache_with_room : Cache :=
  run [OPut "a" (VNum 1); OPut "b" (VNum 2); OGet "a"] (initLRU (VNum 3)).

Definition cache_full : Cache :=
  run [OPut "a" (VNum 1); OPut "b" (VNum 2); OGet "a"] (initLRU (VNum 2)).

(** ** The operations as state functions *)

Lemma nullish_truthy x : truthy x = true → nullish x = false.
Proof. by destruct x. Qed.

Lemma bind_normal {A B} (m : M A) (f : A → M B) c c' a :
  m c = (c', Normal a) → (m ≫= f) c = f a c'.
Proof. intros H. unfold mbind, M_bind. by rewrite H. Qed.

Lemma rd_normal f x c : nullish x = false → rd f x c = (c, Normal (get_field f c x)).
Proof. intros H. unfold rd. by rewrite H. Qed.

Lemma wr_older_normal x v c :
  nullish x = false → wr_older x v c = (put_older x v c, Normal tt).
Proof. intros H. unfold wr_older. by rewrite H. Qed.

Lemma wr_newer_normal x v c :
  nullish x = false → wr_newer x v c = (put_newer x v c, Normal tt).
Proof. intros H. unfold wr_newer. by rewrite H. Qed.

Ltac solve_normal :=
  first
    [ reflexivity
    | by apply rd_normal
    | by apply wr_older_normal
    | by apply wr_newer_normal
    | by apply wr_older_normal, nullish_truthy
    | by apply wr_newer_normal, nullish_truthy
    | erewrite bind_normal; [|solve_normal]; solve_normal ].

Ltac step := erewrite bind_normal; [|solve_normal].

Lemma get_unfold k c :
  get k c =
  let entry := index_get k c in
  if decide (entry = VUndef) then (set_misses (__misses c + 1) c, Normal VUndef)
  else if decide (entry = __newest c) then
    (set_hits (__hits c + 1) c,
     if nullish entry then Raised
     else Normal (get_field FValue (set_hits (__hits c + 1) c) entry))
  else if nullish entry then (c, Raised)
  else
    let c' := get_promote entry c in
    let c' := set_hits (__hits c' + 1) c' in
    (c', Normal (get_field FValue c' entry)).
Proof.
  unfold get. step. set (entry := index_get k c). cbv zeta.
  destruct (decide (entry = VUndef)); [done|].
  step. destruct (decide (entry = __newest c)).
  { step. unfold rd. by destruct (nullish entry). }
  destruct (nullish entry) eqn:Hnull; [by unfold mbind, M_bind, rd; rewrite Hnull|].
  step.
  assert ((when (truthy (get_field FNewer c entry))
            (oldest ← this __oldest;
             when (bool_decide (entry = oldest))
               (n ← rd FNewer entry; update (set_oldest n));;
             n ← rd FNewer entry; o ← rd FOlder entry; wr_older n o)) c
          = (unlink_newer entry c, Normal tt)) as H1.
  { unfold unlink_newer, when.
    destruct (truthy (get_field FNewer c entry)) eqn:Hn; [|done].
    step. destruct (bool_decide (entry = __oldest c)).
    - step. step. step. by apply wr_older_normal, nullish_truthy.
    - step. step. step. by apply wr_older_normal, nullish_truthy. }
  erewrite bind_normal; [|exact H1]. clear H1.
  set (c1 := unlink_newer entry c).
  step.
  assert ((when (truthy (get_field FOlder c1 entry))
            (o ← rd FOlder entry; n ← rd FNewer entry; wr_newer o n)) c1
          = (unlink_older entry c1, Normal tt)) as H2.
  { unfold unlink_older, when.
    destruct (truthy (get_field FOlder c1 entry)) eqn:Ho; [|done].
    step. step. by apply wr_newer_normal, nullish_truthy. }
  erewrite bind_normal; [|exact H2]. clear H2.
  set (c2 := unlink_older entry c1).
  step. step. step. step.
  unfold get_promote, append_newest. fold c1 c2.
  set (c3 := put_older entry _ (put_newer entry VNull c2)).
  assert ((when (truthy (__newest c3)) (wr_newer (__newest c3) entry)) c3
          = (if truthy (__newest c3) then put_newer (__newest c3) entry c3 else c3,
             Normal tt)) as H3.
  { unfold when. destruct (truthy (__newest c3)) eqn:Hn; [|done].
    by apply wr_newer_normal, nullish_truthy. }
  erewrite bind_normal; [|exact H3]. clear H3.
  step. step. by apply rd_normal.
Qed.

Lemma put_unfold k v c :
  put k v c =
  let c1 := put_insert k v c in
  if decide (VNum (__size c1) = __maxSize c1) then put_evict c1
  else (set_size (__size c1 + 1) c1, Normal VUndef).
Proof.
  unfold put. step. erewrite bind_normal; [|by unfold alloc]. cbv zeta. step.
  set (a := length (store c)).
  set (c0 := index_set k a _).
  assert ((if truthy (__newest c)
           then wr_newer (__newest c) (VEntry a)
           else update (set_oldest (VEntry a))) c0
          = (if truthy (__newest c) then put_newer (__newest c) (VEntry a) c0
             else set_oldest (VEntry a) c0, Normal tt)) as H1.
  { destruct (truthy (__newest c)) eqn:Hn; [|done].
    by apply wr_newer_normal, nullish_truthy. }
  erewrite bind_normal; [|exact H1]. clear H1.
  step. step. step. unfold put_insert. fold a. fold c0.
  set (c1 := set_newest _ _).
  destruct (decide (VNum (__size c1) = __maxSize c1)); [|by step].
  unfold put_evict. step.
  destruct (nullish (__oldest c1)) eqn:Hr.
  { unfold mbind, M_bind, rd. by rewrite Hr. }
  step. step. step. cbv zeta.
  set (c2 := set_oldest _ c1).
  destruct (nullish (__oldest c2)) eqn:Hn.
  { unfold mbind, M_bind, wr_older. by rewrite Hn. }
  step. step. step. step. step. by apply rd_normal.
Qed.

(** *** What the steps leave alone *)

Lemma counters_put_older x v c : counters (put_older x v c) = counters c.
Proof. unfold put_older. destruct x; simpl; by try destruct (foreign_of _). Qed.

Lemma counters_put_newer x v c : counters (put_newer x v c) = counters c.
Proof. unfold put_newer. destruct x; simpl; by try destruct (foreign_of _). Qed.

Lemma counters_index_set k a c : counters (index_set k a c) = counters c.
Proof. unfold index_set. by destruct (String.eqb _ _). Qed.

Lemma counters_index_delete k c : counters (index_delete k c) = counters c.
Proof. unfold index_delete. by destruct (String.eqb _ _). Qed.

Lemma counters_unlink_newer x c : counters (unlink_newer x c) = counters c.
Proof.
  unfold unlink_newer. destruct (truthy _); [|done].
  rewrite counters_put_older. by destruct (bool_decide _).
Qed.

Lemma counters_unlink_older x c : counters (unlink_older x c) = counters c.
Proof.
  unfold unlink_older. destruct (truthy _); [|done]. apply counters_put_newer.
Qed.

Lemma counters_append_newest x c : counters (append_newest x c) = counters c.
Proof.
  unfold append_newest. cbv zeta.
  change (counters (set_newest x ?c')) with (counters c').
  destruct (truthy _);
    by rewrite ?counters_put_newer, ?counters_put_older, ?counters_put_newer.
Qed.

Lemma counters_get_promote x c : counters (get_promote x c) = counters c.
Proof.
  unfold get_promote.
  by rewrite counters_append_newest, counters_unlink_older,
    counters_unlink_newer.
Qed.

Lemma counters_put_insert k v c : counters (put_insert k v c) = counters c.
Proof.
  unfold put_insert. cbv zeta.
  change (counters (set_newest ?x ?c')) with (counters c').
  destruct (truthy _).
  - by rewrite counters_put_newer, counters_index_set.
  - change (counters (set_oldest ?x ?c')) with (counters c').
    by rewrite counters_index_set.
Qed.

Lemma counters_put_remove r c : counters (put_remove r c) = counters c.
Proof.
  unfold put_remove. cbv zeta.
  by rewrite counters_index_delete, counters_put_older, counters_put_newer,
    counters_put_older.
Qed.

Lemma counters_put_evict c : counters (put_evict c).1 = counters c.
Proof.
  unfold put_evict. destruct (nullish (__oldest c)); [done|]. cbv zeta.
  destruct (nullish _); [done|]. simpl. by rewrite counters_put_remove.
Qed.

#[global] Arguments get_promote : simpl never.
#[global] Arguments put_insert : simpl never.
#[global] Arguments put_remove : simpl never.
#[global] Arguments put_evict : simpl never.

Lemma counters_eq c c' :
  counters c' = counters c →
  __maxSize c' = __maxSize c ∧ __size c' = __size c ∧
  __hits c' = __hits c ∧ __misses c' = __misses c.
Proof. by intros [= -> -> -> ->]. Qed.

(** [get] never changes the size or the capacity, and moves the counters by
    at most one lookup. *)
Lemma get_counters k c :
  __maxSize (get k c).1 = __maxSize c ∧ __size (get k c).1 = __size c ∧
  __hits c ≤ __hits (get k c).1 ∧ __misses c ≤ __misses (get k c).1 ∧
  __hits (get k c).1 + __misses (get k c).1 ≤ __hits c + __misses c + 1.
Proof.
  rewrite get_unfold. cbv zeta.
  destruct (decide _); [simpl; split_and!; (done || lia)|].
  destruct (decide _); [simpl; split_and!; (done || lia)|].
  destruct (nullish _); [simpl; split_and!; (done || lia)|].
  destruct (counters_eq _ _ (counters_get_promote (index_get k c) c))
    as (Em & Es & Eh & Emi).
  cbn. rewrite Em, Es, Eh, Emi. split_and!; (done || lia).
Qed.

(** [put] leaves the capacity and the two lookup counters, and adds one to
    the size exactly when the size differs from the capacity. *)
Lemma put_counters k v c :
  __maxSize (put k v c).1 = __maxSize c ∧
  __hits (put k v c).1 = __hits c ∧ __misses (put k v c).1 = __misses c ∧
  __size (put k v c).1 =
    if decide (VNum (__size c) = __maxSize c) then __size c else __size c + 1.
Proof.
  rewrite put_unfold. cbv zeta.
  destruct (counters_eq _ _ (counters_put_insert k v c)) as (Em & Es & Eh & Emi).
  rewrite Es, Em. destruct (decide _).
  - destruct (counters_eq _ _ (counters_put_evict (put_insert k v c)))
      as (-> & -> & -> & ->). done.
  - simpl. done.
Qed.

Lemma exec_counters o c :
  __maxSize (exec o c).1 = __maxSize c ∧
  (__size (exec o c).1 = __size c ∨ __size (exec o c).1 = 0 ∨
   (__size (exec o c).1 = __size c + 1 ∧ VNum (__size c) ≠ __maxSize c)).
Proof.
  destruct o as [k|k v| | | | | | | |]; simpl; try (split; [done|by left]).
  - unfold mbind, M_bind. destruct (get_counters k c) as (Em & Es & _).
    destruct (get k c) as [c' [r|]]; simpl in *; split; auto.
  - unfold mbind, M_bind. destruct (put_counters k v c) as (Em & _ & _ & Es).
    destruct (put k v c) as [c' [r|]]; simpl in *; (split; [done|]);
      destruct (decide _); auto.
  - split; [done|]. right. by left.
Qed.

(** ** The properties of the cache *)

Lemma js_or_positive m b : 0 < m → js_or (VNum m) b = VNum m.
Proof.
  intros Hm. unfold js_or. simpl. by destruct (Z.eqb_spec m 0); [lia|].
Qed.

Lemma run_capacity m ops c :
  0 < m → __maxSize c = VNum m → 0 ≤ __size c ≤ m →
  __maxSize (run ops c) = VNum m ∧ 0 ≤ __size (run ops c) ≤ m.
Proof.
  intros Hm. revert c. induction ops as [|o ops IH]; intros c HM Hs; [done|].
  simpl. destruct (exec_counters o c) as [Em Es]. apply IH; [congruence|].
  destruct Es as [->|[->|[-> Hne]]]; [done|lia|].
  assert (__size c ≠ m) by congruence. lia.
Qed.

(** C1. For a cache constructed with a positive integer [maxSize], after
    every operation of every sequence of [put] calls interleaved with any
    other operations (the caller going on after an operation that raises),
    [size() <= maxSize]. *)
Theorem capacity_invariant (m : Z) (ops : list Op) (n : nat) :
  0 < m →
  0 ≤ size (run (take n ops) (initLRU (VNum m))) ≤ m.
Proof.
  intros Hm. apply (run_capacity m); [done| |simpl; lia].
  simpl. by apply js_or_positive.
Qed.

Lemma capacity_invariant_witness :
  0 ≤ size (run (take 4 [OPut "a" (VNum 1); OGet "toString"; OPut "b" (VNum 2);
                         OPut "c" (VNum 3); OClearAll])
                (initLRU (VNum 2))) ≤ 2.
Proof. apply (capacity_invariant 2 _ 4). lia. Defined.

(** C2. With [maxSize = 2], after [put(a,1)], [put(b,2)], the call [get(a)]
    returns 1 and the following [put(c,3)] evicts [b], not [a], returning
    the evicted value 2: [a] is still indexed and on the chain. *)
Theorem get_promotes_recency :
  (let '(c, r1) := put "a" (VNum 1) (initLRU (VNum 2)) in
   let '(c, r2) := put "b" (VNum 2) c in
   let '(c, r3) := get "a" c in
   let '(c, r4) := put "c" (VNum 3) c in
   (r1, r2, r3, r4, keys c, __keys c !! "b", peek "b" c, (get "a" c).2))
  = (Normal VUndef, Normal VUndef, Normal (VNum 1), Normal (VNum 2),
     Some [VStr "c"; VStr "a"], None, VUndef, Normal (VNum 1)).
Proof. vm_compute. reflexivity. Qed.

(** C3. With [maxSize = 2], after [put(a,1)], [put(b,2)], [put(c,3)] the
    third [put] has evicted the first key [a] and returned its value 1, and
    [keys()] is [[c, b]], newest first. *)
Theorem lru_eviction_order :
  (let '(c, r1) := put "a" (VNum 1) (initLRU (VNum 2)) in
   let '(c, r2) := put "b" (VNum 2) c in
   let '(c, r3) := put "c" (VNum 3) c in
   (r1, r2, r3, keys c, __keys c !! "a", peek "a" c))
  = (Normal VUndef, Normal VUndef, Normal (VNum 1),
     Some [VStr "c"; VStr "b"], None, VUndef).
Proof. vm_compute. reflexivity. Qed.

(** C4 (the code departs from it). On a cache with [maxSize = 1], after
    [put(a,1)], [put(a,2)] the entry [(a,2)] is the one entry of the chain,
    yet [get(a)] misses and returns [undefined]: the second [put] has
    removed the entry [(a,1)] it was meant to replace and, with it, the
    index slot of [a].  Likewise with [maxSize = 3] after [put(a,1)],
    [put(a,2)], [put(b,3)], [put(c,4)]: the fourth [put] removes the stale
    [(a,1)] and [(a,2)], still on the chain, is no longer found. *)
Theorem get_after_overwrite_misses :
  (let '(c, r1) := put "a" (VNum 1) (initLRU (VNum 1)) in
   let '(c, r2) := put "a" (VNum 2) c in
   let '(c', r3) := get "a" c in
   (r1, r2, size c, keys c, values c, r3, misses c', hits c'))
  = (Normal VUndef, Normal (VNum 1), 1, Some [VStr "a"], Some [VNum 2],
     Normal VUndef, 1, 0) ∧
  (let '(c, r1) := put "a" (VNum 1) (initLRU (VNum 3)) in
   let '(c, r2) := put "a" (VNum 2) c in
   let '(c, r3) := put "b" (VNum 3) c in
   let '(c, r4) := put "c" (VNum 4) c in
   let '(c', r5) := get "a" c in
   (r1, r2, r3, r4, keys c, values c, r5, misses c', hits c'))
  = (Normal VUndef, Normal VUndef, Normal VUndef, Normal (VNum 1),
     Some [VStr "c"; VStr "b"; VStr "a"], Some [VNum 4; VNum 3; VNum 2],
     Normal VUndef, 1, 0).
Proof. split; vm_compute; reflexivity. Qed.

(** C5 (the code departs from it). After [put(a,1)], [put(a,2)] on a cache
    with [maxSize = 4], [size()] is 2 although one key was ever inserted:
    the overwritten entry stays on the chain and is counted. *)
Theorem size_counts_overwritten_entries :
  (let '(c, r1) := put "a" (VNum 1) (initLRU (VNum 4)) in
   let '(c, r2) := put "a" (VNum 2) c in
   (r1, r2, size c, keys c, values c, map_to_list (__keys c)))
  = (Normal VUndef, Normal VUndef, 2, Some [VStr "a"; VStr "a"],
     Some [VNum 2; VNum 1], [("a", 1%nat)]).
Proof. vm_compute. reflexivity. Qed.

(** C6 (the code departs from it). After [put(a,1)], [peek(a)] is the entry
    object [{key: a, value: 1, older: null, newer: null}] held by the
    index, not the value 1. *)
Theorem peek_returns_the_entry :
  (let '(c, r) := put "a" (VNum 1) (initLRU (VNum 4)) in
   (r, peek "a" c, deref c 0, bool_decide (peek "a" c = VNum 1)))
  = (Normal VUndef, VEntry 0, createCacheEntry "a" (VNum 1) VNull VNull,
     false).
Proof. vm_compute. reflexivity. Qed.

(** C7, as the specification states it, fails when the configuration is omitted:
    [create()] does not run [initLRU], and the object it returns has neither
    a [maxSize] of 4 nor a [size()] of 0. *)
Lemma create_without_config_counterexample :
  ¬ (obj_maxSize (create ConfigOmitted) = VNum 4 ∧
     obj_size (create ConfigOmitted) = VNum 0 ∧
     obj_hits (create ConfigOmitted) = VNum 0 ∧
     obj_misses (create ConfigOmitted) = VNum 0).
Proof. by intros [[=] _]. Qed.

(** C7, amended. Constructed from a configuration object, the cache has
    [maxSize] 4 when the option is omitted or falsy and the supplied value
    otherwise (a positive integer in particular), with [size()], [hits()]
    and [misses()] all 0.  Without a configuration object [create] leaves
    the object uninitialised: the accessors return [undefined]. *)
Theorem create_spec :
  (∀ maxSize,
     ∃ c, create (ConfigObject maxSize) = Initialised c ∧
          __maxSize c = (if truthy maxSize then maxSize else VNum 4) ∧
          size c = 0 ∧ hits c = 0 ∧ misses c = 0 ∧ keys c = Some []) ∧
  (∀ p, obj_maxSize (create (ConfigObject (VNum (Z.pos p)))) = VNum (Z.pos p)) ∧
  obj_maxSize (create (ConfigObject VUndef)) = VNum 4 ∧
  obj_maxSize (create (ConfigObject (VNum 0))) = VNum 4 ∧
  create ConfigOmitted = Uninitialised ∧
  (∀ v, create (ConfigPrimitive v) = Uninitialised) ∧
  obj_maxSize Uninitialised = VUndef ∧
  obj_size Uninitialised = VUndef ∧
  obj_hits Uninitialised = VUndef ∧
  obj_misses Uninitialised = VUndef.
Proof.
  repeat split. intros m. by exists (initLRU m).
Qed.

(** *** Keys and values of the entries are never written *)

Lemma deref_put_older x v c b :
  key (deref (put_older x v c) b) = key (deref c b) ∧
  value (deref (put_older x v c) b) = value (deref c b).
Proof.
  unfold put_older, deref. destruct x as [| | | | | |a| |]; simpl; try done.
  destruct (decide (a = b)) as [->|Hne].
  - rewrite list_lookup_alter, decide_True by done. by destruct (store c !! b).
  - by rewrite list_lookup_alter_ne.
Qed.

Lemma deref_put_newer x v c b :
  key (deref (put_newer x v c) b) = key (deref c b) ∧
  value (deref (put_newer x v c) b) = value (deref c b).
Proof.
  unfold put_newer, deref. destruct x as [| | | | | |a| |]; simpl; try done.
  destruct (decide (a = b)) as [->|Hne].
  - rewrite list_lookup_alter, decide_True by done. by destruct (store c !! b).
  - by rewrite list_lookup_alter_ne.
Qed.

Lemma deref_get_promote x c b :
  key (deref (get_promote x c) b) = key (deref c b) ∧
  value (deref (get_promote x c) b) = value (deref c b).
Proof.
  unfold get_promote, append_newest, unlink_older, unlink_newer. cbv zeta.
  change (deref (set_newest ?y ?c') b) with (deref c' b).
  repeat match goal with
         | |- context [if ?g then _ else _] => destruct g
         | |- context [deref (put_older ?y ?w ?c') b] =>
           destruct (deref_put_older y w c' b) as [-> ->]
         | |- context [deref (put_newer ?y ?w ?c') b] =>
           destruct (deref_put_newer y w c' b) as [-> ->]
         | |- context [deref (set_oldest ?y ?c') b] =>
           change (deref (set_oldest y c') b) with (deref c' b)
         end; done.
Qed.

(** C8 (the code departs from it). A key that was never put but names a
    member of [Object.prototype] is not absent for [get]: on a new cache
    [get('toString')] finds the inherited function through the prototype
    of the index, counts a hit and no miss, and makes the function the
    newest node of the chain, where the claim has a miss and no structural
    change; with [maxSize = 1] the second [put] after it raises a
    [TypeError]. *)
Theorem get_inherited_name_is_hit :
  __keys (initLRU (VNum 4)) !! "toString" = None ∧
  (let '(c, r) := get "toString" (initLRU (VNum 4)) in
   (r, hits c, misses c, size c, __newest c, __oldest c, keys c))
  = (Normal VUndef, 1, 0, 0, VFun "toString", VNull, Some [VUndef]) ∧
  completions [OGet "toString"; OPut "a" (VNum 1); OPut "b" (VNum 2)]
              (initLRU (VNum 1))
  = [Normal tt; Normal tt; Raised].
Proof. split_and!; by vm_compute. Qed.

(** What [get] does to the counters, by what the index lookup yields. *)
Lemma get_accounting k c :
  match index_get k c with
  | VUndef => get k c = (set_misses (__misses c + 1) c, Normal VUndef)
  | VEntry entry =>
    (get k c).2 = Normal (value (deref c entry)) ∧
    __hits (get k c).1 = __hits c + 1 ∧ __misses (get k c).1 = __misses c
  | _ =>
    __misses (get k c).1 = __misses c ∧
    (__hits (get k c).1 = __hits c + 1 ∨ get k c = (c, Raised))
  end.
Proof.
  rewrite get_unfold. cbv zeta.
  destruct (counters_eq _ _ (counters_get_promote (index_get k c) c))
    as (_ & _ & Eh & Emi).
  destruct (index_get k c) as [| | | | | |a| |] eqn:Hk;
    try done;
    rewrite decide_False by done;
    (destruct (decide _);
      [cbn; by (split_and!; try left)|]); cbn [nullish];
    try (cbn; rewrite Eh, Emi; by (split_and!; try left)).
  - cbn. auto.
  - cbn [fst snd get_field]. split_and!.
    + f_equal. change (deref (set_hits ?h ?c') a) with (deref c' a).
      apply deref_get_promote.
    + cbn. by rewrite Eh.
    + cbn. by rewrite Emi.
Qed.

Lemma keys_loop_done fuel c entry acc :
  truthy entry = false → keys_loop fuel c entry acc = Some acc.
Proof. intros H. destruct fuel; simpl; by rewrite H. Qed.

Lemma values_loop_done fuel c entry acc :
  truthy entry = false → values_loop fuel c entry acc = Some acc.
Proof. intros H. destruct fuel; simpl; by rewrite H. Qed.

Lemma enough_succ c : ∃ n, enough c = S (S n).
Proof.
  exists (length (store c) + length (map_to_list (links_older c)) + 1)%nat.
  unfold enough. lia.
Qed.

Lemma js_or_truthy m d : truthy d = true → truthy (js_or m d) = true.
Proof. unfold js_or. by destruct (truthy m) eqn:E. Qed.

Lemma run_maxSize ops c : __maxSize (run ops c) = __maxSize c.
Proof.
  revert c. induction ops as [|o ops IH]; intros c; [done|].
  simpl. rewrite IH. by destruct (exec_counters o c) as [-> _].
Qed.

Lemma put_insert_first k v c :
  __newest c = VNull →
  __newest (put_insert k v c) = VEntry (length (store c)) ∧
  deref (put_insert k v c) (length (store c))
    = createCacheEntry k v VNull VNull.
Proof.
  intros Hn. unfold put_insert. rewrite Hn. cbv zeta. cbn [truthy].
  split; [done|]. unfold index_set, deref.
  destruct (String.eqb k "__proto__"); cbn;
    by rewrite lookup_app_r, Nat.sub_diag by done.
Qed.

Lemma keys_single c a :
  __newest c = VEntry a → older (deref c a) = VNull →
  keys c = Some [VStr (key (deref c a))].
Proof.
  intros Hn Ho. unfold keys. destruct (enough_succ c) as [n ->].
  rewrite Hn. simpl. by rewrite Ho.
Qed.

Lemma values_single c a :
  __newest c = VEntry a → older (deref c a) = VNull →
  values c = Some [value (deref c a)].
Proof.
  intros Hn Ho. unfold values. destruct (enough_succ c) as [n ->].
  rewrite Hn. simpl. by rewrite Ho.
Qed.

(** The first [put] on an empty cache whose capacity is truthy. *)
Lemma put_first k v c :
  __newest c = VNull → __size c = 0 → truthy (__maxSize c) = true →
  ∃ c', put k v c = (c', Normal VUndef) ∧
        size c' = 1 ∧ hits c' = __hits c ∧ misses c' = __misses c ∧
        keys c' = Some [VStr k] ∧ values c' = Some [v].
Proof.
  intros Hn Hs Hm. rewrite put_unfold. cbv zeta.
  destruct (counters_eq _ _ (counters_put_insert k v c))
    as (Em & Es & Eh & Emi).
  destruct (put_insert_first k v c Hn) as [En Ed].
  rewrite Em, Es, Hs. rewrite decide_False by (intros E; by rewrite <- E in Hm).
  eexists. split; [done|].
  split_and!; try done.
  - pose proof (keys_single (set_size (0 + 1) (put_insert k v c)) _ En) as Hk.
    change (deref (set_size ?s ?c') ?a) with (deref c' a) in Hk.
    rewrite Ed in Hk. by apply Hk.
  - pose proof (values_single (set_size (0 + 1) (put_insert k v c)) _ En) as Hk.
    change (deref (set_size ?s ?c') ?a) with (deref c' a) in Hk.
    rewrite Ed in Hk. by apply Hk.
Qed.

Lemma clearAll_init c m :
  __maxSize c = js_or m (VNum 4) → clearAll c = initLRU_in c m.
Proof. destruct c. simpl. by intros ->. Qed.

(** C9. [clearAll] leaves [size()], [hits()] and [misses()] at 0 and
    [keys()] and [values()] empty and keeps [maxSize], on every state;
    after any sequence of operations the cleared cache is in the state of a
    cache newly initialised with the same [maxSize] in the same heap, so a
    [put] on the one is a [put] on the other; that [put] returns
    [undefined] and leaves the one entry it was given. *)
Theorem clear_resets_fully :
  (∀ c, size (clearAll c) = 0 ∧ hits (clearAll c) = 0 ∧
        misses (clearAll c) = 0 ∧ keys (clearAll c) = Some [] ∧
        values (clearAll c) = Some [] ∧
        __oldest (clearAll c) = VNull ∧ __newest (clearAll c) = VNull ∧
        __keys (clearAll c) = ∅ ∧ keys_proto (clearAll c) = None ∧
        __maxSize (clearAll c) = __maxSize c) ∧
  (∀ h m ops,
     let c := run ops (initLRU_in h m) in
     clearAll c = initLRU_in c m ∧
     ∀ k v,
       put k v (clearAll c) = put k v (initLRU_in c m) ∧
       ∃ c', put k v (clearAll c) = (c', Normal VUndef) ∧
             size c' = 1 ∧ hits c' = 0 ∧ misses c' = 0 ∧
             keys c' = Some [VStr k] ∧ values c' = Some [v]).
Proof.
  split.
  { intros c. split_and!; try done.
    - by apply keys_loop_done.
    - by apply values_loop_done. }
  intros h m ops c.
  assert (__maxSize c = js_or m (VNum 4)) as HM.
  { unfold c. by rewrite run_maxSize. }
  assert (clearAll c = initLRU_in c m) as Hc.
  { by apply clearAll_init. }
  split; [done|]. intros k v. split; [by rewrite Hc|].
  destruct (put_first k v (clearAll c)) as (c' & Hp & H); try done.
  - change (__maxSize (clearAll c)) with (__maxSize c). rewrite HM.
    by apply js_or_truthy.
  - by exists c'.
Qed.

(** ** Linked segments *)

Section Segments.
Implicit Types (h : list Entry) (l : list addr) (p n : option addr).

Lemma first_or_app l1 l2 n :
  first_or (l1 ++ l2) n = first_or l1 (first_or l2 n).
Proof. by destruct l1. Qed.

Lemma last_or_snoc l a p : last_or (l ++ [a]) p = Some a.
Proof. unfold last_or. by rewrite last_snoc. Qed.

Lemma last_or_cons a l p : last_or (a :: l) p = last_or l (Some a).
Proof.
  unfold last_or. rewrite last_cons. by destruct (last l).
Qed.

Lemma last_or_None l : last_or l None = last l.
Proof. unfold last_or. by destruct (last l). Qed.

Lemma dseg_app h l1 l2 p n :
  dseg h p (l1 ++ l2) n ↔
  dseg h p l1 (first_or l2 n) ∧ dseg h (last_or l1 p) l2 n.
Proof.
  revert p. induction l1 as [|a l1 IH]; intros p; simpl.
  - unfold last_or; simpl. tauto.
  - rewrite last_or_cons, first_or_app. split.
    + intros (e & He & Ho & Hn & Hd). apply IH in Hd as [Hd1 Hd2].
      split; [|done]. by exists e.
    + intros [(e & He & Ho & Hn & Hd1) Hd2]. exists e.
      split_and!; try done. apply IH. by split.
Qed.

Lemma dseg_singleton h a p n :
  dseg h p [a] n ↔ ∃ e, h !! a = Some e ∧ older e = ref p ∧ newer e = ref n.
Proof.
  simpl. split.
  - intros (e & ? & ? & ? & _). by exists e.
  - intros (e & ? & ? & ?). by exists e.
Qed.

Lemma dseg_allocated h l p n a :
  dseg h p l n → a ∈ l → (a < length h)%nat.
Proof.
  revert p. induction l as [|b l IH]; intros p Hd Ha; [by inversion Ha|].
  destruct Hd as (e & He & _ & _ & Hd).
  apply elem_of_cons in Ha as [->|Ha]; [by eapply lookup_lt_Some|eauto].
Qed.

(** Only the entries of the segment matter. *)
Lemma dseg_agree h h' l p n :
  (∀ a, a ∈ l → h' !! a = h !! a) → dseg h p l n → dseg h' p l n.
Proof.
  revert p. induction l as [|b l IH]; intros p Hag Hd; [done|].
  destruct Hd as (e & He & Ho & Hn & Hd). exists e. split_and!; try done.
  - rewrite Hag; [done|]. apply elem_of_cons; by left.
  - apply IH; [|done]. intros a Ha. apply Hag, elem_of_cons. by right.
Qed.

Lemma dseg_alter_frame h f a l p n :
  a ∉ l → dseg h p l n → dseg (alter f a h) p l n.
Proof.
  intros Ha. apply dseg_agree. intros b Hb.
  apply list_lookup_alter_ne. by intros ->.
Qed.

Lemma dseg_alloc_frame h e l p n :
  dseg h p l n → dseg (h ++ [e]) p l n.
Proof.
  intros Hd. eapply dseg_agree; [|done]. intros a Ha.
  apply lookup_app_l. by eapply dseg_allocated.
Qed.

(** Writing the [older] field of the first entry of a segment. *)
Lemma dseg_write_older h a l p p' n :
  a ∉ l → dseg h p (a :: l) n →
  dseg (alter (with_older (ref p')) a h) p' (a :: l) n.
Proof.
  intros Ha (e & He & Ho & Hn & Hd). exists (with_older (ref p') e).
  split_and!; try done.
  - by rewrite list_lookup_alter_eq, He.
  - by apply dseg_alter_frame.
Qed.

(** Writing the [newer] field of the last entry of a segment. *)
Lemma dseg_write_newer h a l p n n' :
  a ∉ l → dseg h p (l ++ [a]) n →
  dseg (alter (with_newer (ref n')) a h) p (l ++ [a]) n'.
Proof.
  intros Ha. rewrite !dseg_app. simpl. intros [Hd1 (e & He & Ho & Hn & _)].
  split; [by apply dseg_alter_frame|].
  exists (with_newer (ref n') e). split_and!; try done.
  by rewrite list_lookup_alter_eq, He.
Qed.

Lemma dseg_length h l p n :
  NoDup l → dseg h p l n → (length l ≤ length h)%nat.
Proof.
  intros Hnd Hd.
  cut (length l ≤ length (seq 0%nat (length h)))%nat; [by rewrite length_seq|].
  apply submseteq_length, NoDup_submseteq; [done|].
  intros a Ha. apply elem_of_seq. split; [lia|].
  simpl. by eapply dseg_allocated.
Qed.
End Segments.

#[global] Arguments dseg : simpl never.

(** ** The traversals follow the chain *)

Section Traversals.
Variable c : Cache.

Lemma keys_loop_dseg l n fuel acc :
  dseg (store c) None l n → (length l ≤ fuel)%nat →
  keys_loop fuel c (ref (last l)) acc =
  Some (acc ++ ((λ a, VStr (key (deref c a))) <$> reverse l)).
Proof.
  revert n fuel acc.
  induction l as [|a l IH] using rev_ind; intros n fuel acc Hd Hf.
  - simpl. rewrite app_nil_r. by apply keys_loop_done.
  - rewrite last_snoc, reverse_snoc. rewrite length_app in Hf. simpl in Hf.
    destruct fuel as [|fuel]; [lia|]. simpl.
    apply dseg_app in Hd as [Hd1 Hd2].
    apply dseg_singleton in Hd2 as (e & He & Ho & _).
    assert (deref c a = e) as Ea by (unfold deref; by rewrite He).
    rewrite Ea, Ho, last_or_None. rewrite (IH _ fuel _ Hd1) by lia.
    by rewrite <-app_assoc.
Qed.

Lemma values_loop_dseg l n fuel acc :
  dseg (store c) None l n → (length l ≤ fuel)%nat →
  values_loop fuel c (ref (last l)) acc =
  Some (acc ++ ((λ a, value (deref c a)) <$> reverse l)).
Proof.
  revert n fuel acc.
  induction l as [|a l IH] using rev_ind; intros n fuel acc Hd Hf.
  - simpl. rewrite app_nil_r. by apply values_loop_done.
  - rewrite last_snoc, reverse_snoc. rewrite length_app in Hf. simpl in Hf.
    destruct fuel as [|fuel]; [lia|]. simpl.
    apply dseg_app in Hd as [Hd1 Hd2].
    apply dseg_singleton in Hd2 as (e & He & Ho & _).
    assert (deref c a = e) as Ea by (unfold deref; by rewrite He).
    rewrite Ea, Ho, last_or_None. rewrite (IH _ fuel _ Hd1) by lia.
    by rewrite <-app_assoc.
Qed.

Lemma forEach_loop_dseg {W} (f : Call → W → Cache → W) context l n fuel s :
  dseg (store c) None l n → (length l ≤ fuel)%nat →
  forEach_loop (observer f) context fuel (ref (last l)) s c =
  Some (c, Normal (foldl (λ s a,
          f (mkCall (if truthy context then Some context else None)
                    [value (deref c a)]) s c) s (reverse l))).
Proof.
  revert n fuel s.
  induction l as [|a l IH] using rev_ind; intros n fuel s Hd Hf.
  - by destruct fuel.
  - rewrite last_snoc, reverse_snoc. rewrite length_app in Hf. simpl in Hf.
    destruct fuel as [|fuel]; [lia|]. simpl.
    apply dseg_app in Hd as [Hd1 Hd2].
    apply dseg_singleton in Hd2 as (e & He & Ho & _).
    assert (deref c a = e) as Ea by (unfold deref; by rewrite He).
    rewrite Ea, Ho, last_or_None. rewrite (IH _ fuel _ Hd1) by lia.
    by destruct (truthy context).
Qed.
End Traversals.

(** ** The invariant is kept by every operation on plain keys *)

Lemma plain_key_proto k : plain_key k = true → String.eqb k "__proto__" = false.
Proof.
  unfold plain_key. intros [H _]%andb_prop. by apply negb_true_iff in H.
Qed.

Lemma plain_key_not_proto k : plain_key k = true → k ≠ "__proto__".
Proof. intros Hk ->. done. Qed.

Lemma chain_inv_initLRU m : chain_inv (initLRU m) [].
Proof.
  split; [split|..]; simpl; try done.
  - apply NoDup_nil_2.
  - by apply js_or_truthy.
Qed.

Lemma chain_inv_clearAll c l : chain_inv c l → chain_inv (clearAll c) [].
Proof.
  intros [[_ _ _ _ _ _ _ Hlo Hln] _ Hm]. split; [split|..]; simpl; try done.
  - apply NoDup_nil_2.
  - intros a Ha. by apply elem_of_nil in Ha.
Qed.

(** In a well-linked cache the lookup of a plain key finds an own property
    of the index or nothing. *)
Lemma index_get_plain k c l :
  linked c l → plain_key k = true →
  index_get k c = match __keys c !! k with
                  | Some a => VEntry a
                  | None => VUndef
                  end.
Proof.
  intros [_ _ _ _ _ _ Hp Hlo Hln] Hk. unfold index_get.
  rewrite (plain_key_proto k Hk), Hp. destruct (__keys c !! k); [done|].
  unfold object_prototype_get, plain_key in *.
  apply andb_prop in Hk as [_ Hk]. apply bool_decide_eq_true in Hk.
  rewrite bool_decide_eq_false_2 by done.
  destruct (field_of_name k) as [[]|]; simpl; try done.
  - by rewrite Hlo.
  - by rewrite Hln.
Qed.

(** *** put *)

Lemma key_alter_older (h : list Entry) o a b :
  key (default null_entry (alter (with_older o) a h !! b)) =
  key (default null_entry (h !! b)).
Proof.
  rewrite list_lookup_alter. case_decide; [subst|done]. by destruct (h !! b).
Qed.

Lemma key_alter_newer (h : list Entry) n a b :
  key (default null_entry (alter (with_newer n) a h !! b)) =
  key (default null_entry (h !! b)).
Proof.
  rewrite list_lookup_alter. case_decide; [subst|done]. by destruct (h !! b).
Qed.

Lemma value_alter_older (h : list Entry) o a b :
  value (default null_entry (alter (with_older o) a h !! b)) =
  value (default null_entry (h !! b)).
Proof.
  rewrite list_lookup_alter. case_decide; [subst|done]. by destruct (h !! b).
Qed.

Lemma value_alter_newer (h : list Entry) n a b :
  value (default null_entry (alter (with_newer n) a h !! b)) =
  value (default null_entry (h !! b)).
Proof.
  rewrite list_lookup_alter. case_decide; [subst|done]. by destruct (h !! b).
Qed.

Lemma linked_allocated c l a : linked c l → a ∈ l → (a < length (store c))%nat.
Proof. intros [_ Hd _ _ _ _ _ _ _] Ha. exact (dseg_allocated _ _ _ _ _ Hd Ha). Qed.

(** The field writes are only unfolded under a field read, where all but
    one copy of the state disappears. *)
Ltac cache_simpl := unfold deref in *; simpl in *.

(** Link writes leave keys and values alone. *)
Ltac kv_simpl :=
  repeat first
    [ rewrite key_alter_older | rewrite key_alter_newer
    | rewrite value_alter_older | rewrite value_alter_newer ].

Lemma linked_put_insert c l k v :
  plain_key k = true →
  linked c l → linked (put_insert k v c) (l ++ [length (store c)]).
Proof.
  intros Hpk Hl. pose proof (plain_key_proto k Hpk) as Hk.
  pose proof (λ a, linked_allocated c l a Hl) as Hal.
  destruct Hl as [Hnd Hd Ho Hn Hi Hks Hp Hlo Hln].
  destruct c as [h lo ln M sz ks kp old new hi mi].
  cache_simpl. subst old.
  assert (Hfresh : length h ∉ l) by (intros ?%Hal; lia).
  unfold put_insert, index_set. cache_simpl. rewrite Hk.
  destruct l as [|z l _] using rev_ind.
  - simpl in Hn. subst new. split; cache_simpl; try done.
    + apply NoDup_singleton.
    + apply dseg_singleton. eexists. by rewrite (list_lookup_middle h []).
    + intros k' a. rewrite lookup_insert. case_decide as Hk'.
      * intros [= <-]. split; [apply elem_of_cons; by left|].
        by rewrite (list_lookup_middle h []).
      * intros Hk''. destruct (Hi _ _ Hk'') as [Ha _].
        by apply elem_of_nil in Ha.
    + intros a ->%list_elem_of_singleton.
      by rewrite (list_lookup_middle h []).
  - rewrite last_snoc in Hn. subst new.
    assert (z ∈ l ++ [z]) as Hzin.
    { apply elem_of_app. right. apply elem_of_cons. by left. }
    apply NoDup_app in Hnd as Hz. destruct Hz as (_ & Hz & _).
    assert (z ∉ l) as Hzl.
    { intros Hin. apply (Hz z Hin), elem_of_cons. by left. }
    assert (z ≠ length h) as Hzh by (by intros ->).
    split; cache_simpl; try done.
    + apply NoDup_app. split_and!; [done| |apply NoDup_singleton].
      by intros x Hx ->%list_elem_of_singleton.
    + apply dseg_app. split; simpl.
      * apply (dseg_write_newer _ z l None None (Some (length h))); [done|].
        by apply dseg_alloc_frame.
      * rewrite last_or_snoc. apply dseg_singleton. eexists.
        by rewrite list_lookup_alter_ne, (list_lookup_middle h []).
    + by destruct l.
    + by rewrite last_snoc.
    + intros k' a. rewrite lookup_insert. case_decide as Hk'.
      * intros [= <-]. split.
        { apply elem_of_app. right. apply elem_of_cons. by left. }
        by rewrite list_lookup_alter_ne, (list_lookup_middle h []).
      * intros Hk''. destruct (Hi _ _ Hk'') as [Ha Hkey].
        split; [apply elem_of_app; by left|].
        kv_simpl. by rewrite lookup_app_l by auto.
    + intros a [Ha| ->%list_elem_of_singleton]%elem_of_app; kv_simpl.
      * rewrite lookup_app_l by auto. by apply Hks.
      * by rewrite (list_lookup_middle h []).
Qed.

Lemma linked_put_remove c r r' l :
  linked c (r :: r' :: l) →
  linked (put_remove (VEntry r) (set_oldest (VEntry r') c)) (r' :: l).
Proof.
  intros [Hnd Hd Ho Hn Hi Hks Hp Hlo Hln].
  destruct c as [h lo ln M sz ks kp old new hi mi].
  cache_simpl. apply NoDup_cons in Hnd as [Hr Hnd].
  destruct Hd as (e & He & _ & _ & Hd).
  assert (String.eqb (key (default null_entry (h !! r))) "__proto__" = false)
    as Hkr.
  { apply plain_key_proto, Hks, elem_of_cons. by left. }
  unfold put_remove, index_delete. cbv zeta. cbn [get_field property_key].
  cache_simpl. kv_simpl. rewrite Hkr.
  split; cache_simpl; try done.
  - do 2 (apply dseg_alter_frame; [done|]).
    apply NoDup_cons in Hnd as [Hr' _].
    by apply (dseg_write_older _ r' l (Some r) None None).
  - intros k a. kv_simpl. rewrite lookup_delete. case_decide as Hk; [done|].
    intros Hka. destruct (Hi _ _ Hka) as [Ha Hkey]. split; [|done].
    apply elem_of_cons in Ha as [->|Ha]; [|done]. by destruct Hk.
  - intros a Ha. kv_simpl. apply Hks, elem_of_cons. by right.
Qed.

Lemma deref_put_remove x c b :
  key (deref (put_remove x c) b) = key (deref c b) ∧
  value (deref (put_remove x c) b) = value (deref c b).
Proof.
  unfold put_remove. cbv zeta.
  assert (∀ k c', deref (index_delete k c') b = deref c' b) as Ei.
  { intros k c'. unfold index_delete. by destruct (String.eqb _ _). }
  rewrite Ei.
  repeat match goal with
         | |- context [deref (put_older ?y ?w ?c') b] =>
           destruct (deref_put_older y w c' b) as [-> ->]
         | |- context [deref (put_newer ?y ?w ?c') b] =>
           destruct (deref_put_newer y w c' b) as [-> ->]
         end; done.
Qed.

Lemma put_evict_linked c r r' l :
  linked c (r :: r' :: l) →
  put_evict c =
    (put_remove (VEntry r) (set_oldest (VEntry r') c),
     Normal (value (deref c r))).
Proof.
  intros [Hnd Hd Ho Hn Hi Hks Hp Hlo Hln]. unfold put_evict.
  destruct Hd as (e & He & _ & Hen & _). simpl in Ho, Hen.
  assert (deref c r = e) as Hr by (unfold deref; by rewrite He).
  rewrite Ho. cbn [nullish]. cbv zeta. cbn [get_field]. rewrite Hr, Hen.
  cbn [__oldest set_oldest nullish]. do 2 f_equal.
  destruct (deref_put_remove (VEntry r) (set_oldest (VEntry r') c) r)
    as [_ ->]. by rewrite <-Hr.
Qed.

Lemma put_insert_value k v c a :
  (a < length (store c))%nat →
  value (deref (put_insert k v c) a) = value (deref c a) ∧
  key (deref (put_insert k v c) a) = key (deref c a).
Proof.
  intros Ha. unfold put_insert. cbv zeta.
  change (deref (set_newest ?x ?c') a) with (deref c' a).
  assert (∀ c', deref (index_set k (length (store c)) c') a = deref c' a) as Ei.
  { intros c'. unfold index_set. by destruct (String.eqb _ _). }
  destruct (truthy (__newest c)).
  - destruct (deref_put_newer (__newest c) (VEntry (length (store c)))
      (index_set k (length (store c))
         (set_store
            (store c ++ [createCacheEntry k v (__newest c) VNull]) c)) a)
      as [-> ->].
    rewrite Ei. unfold deref. simpl. by rewrite lookup_app_l.
  - change (deref (set_oldest ?x ?c') a) with (deref c' a).
    rewrite Ei. unfold deref. simpl. by rewrite lookup_app_l.
Qed.

Lemma put_room c l k v :
  plain_key k = true →
  chain_inv c l → VNum (__size c) ≠ __maxSize c →
  put k v c = (set_size (__size c + 1) (put_insert k v c), Normal VUndef) ∧
  chain_inv (put k v c).1 (l ++ [length (store c)]).
Proof.
  intros Hk [Hl Hs Hm] Hne. rewrite put_unfold. cbv zeta.
  destruct (counters_eq _ _ (counters_put_insert k v c)) as (Em & Es & _).
  rewrite Es, Em, decide_False by done. split; [done|].
  pose proof (linked_put_insert c l k v Hk Hl) as [Hnd Hd Ho Hn Hi].
  split; [split|..]; cbn; try done.
  - rewrite Hs, length_app. simpl. lia.
  - by rewrite Em.
Qed.

Lemma put_full c l k v :
  plain_key k = true →
  chain_inv c l → VNum (__size c) = __maxSize c →
  ∃ a l0, l = a :: l0 ∧ (put k v c).2 = Normal (value (deref c a)) ∧
          key (deref (put_insert k v c) a) = key (deref c a) ∧
          (put k v c).1 =
            put_remove (VEntry a)
              (set_oldest (ref (head (l0 ++ [length (store c)])))
                 (put_insert k v c)) ∧
          chain_inv (put k v c).1 (l0 ++ [length (store c)]).
Proof.
  intros Hk [Hl Hs Hm] He. rewrite put_unfold. cbv zeta.
  destruct (counters_eq _ _ (counters_put_insert k v c)) as (Em & Es & _).
  rewrite Es, Em, decide_True by done.
  destruct l as [|a l0].
  { rewrite <-He, Hs in Hm. done. }
  pose proof (linked_put_insert c _ k v Hk Hl) as Hl1.
  assert (∃ b l1, l0 ++ [length (store c)] = b :: l1) as (b & l1 & El).
  { destruct l0; simpl; eauto. }
  simpl in Hl1. rewrite El in Hl1.
  pose proof (linked_put_remove _ _ _ _ Hl1) as Hl2.
  rewrite (put_evict_linked _ _ _ _ Hl1). cbn [fst snd].
  assert (a < length (store c))%nat as Ha.
  { eapply linked_allocated; [done|]. apply elem_of_cons. by left. }
  destruct (put_insert_value k v c a Ha) as [Ev Ek].
  assert (length (b :: l1) = length l0 + 1)%nat as Hlen.
  { by rewrite <-El, length_app. }
  destruct (counters_eq _ _
    (counters_put_remove (VEntry a) (set_oldest (VEntry b) (put_insert k v c))))
    as (Em' & Es' & _).
  change (__maxSize (set_oldest ?x ?c')) with (__maxSize c') in Em'.
  change (__size (set_oldest ?x ?c')) with (__size c') in Es'.
  exists a, l0. rewrite El. split_and!; try done.
  - by rewrite Ev.
  - split; [done|..].
    + rewrite Es', Es, Hs, Hlen. simpl. lia.
    + by rewrite Em', Em.
Qed.

(** *** get *)

(** The last three writes of [get]: the entry [a], already spliced out of
    the chain [l1 ++ b :: l2], is appended behind its last entry [z]. *)
Lemma linked_append_promoted h lo ln M sz ks hi mi l1 a b l2 lz z :
  NoDup (l1 ++ a :: b :: l2) →
  b :: l2 = lz ++ [z] →
  dseg h None l1 (Some b) →
  dseg h (last_or l1 None) (b :: l2) None →
  is_Some (h !! a) →
  (∀ k a0, ks !! k = Some a0 →
           a0 ∈ l1 ++ a :: b :: l2 ∧ key (default null_entry (h !! a0)) = k) →
  (∀ a0, a0 ∈ l1 ++ a :: b :: l2 →
         plain_key (key (default null_entry (h !! a0))) = true) →
  lo !! FObjectPrototype = None → ln !! FObjectPrototype = None →
  linked
    (mkCache
       (alter (with_newer (VEntry a)) z
          (alter (with_older (VEntry z)) a (alter (with_newer VNull) a h)))
       lo ln M sz ks None (ref (head (l1 ++ b :: l2))) (VEntry a) hi mi)
    (l1 ++ (b :: l2) ++ [a]).
Proof.
  intros Hnd Ez Hd1 Hd2 [ea Hea] Hi Hks Hlo Hln.
  apply NoDup_app in Hnd as (Hnd1 & Hnd12 & Hnd2).
  apply NoDup_cons in Hnd2 as [Hab Hnd2].
  assert (a ∉ l1) as Hal1.
  { intros Hin. apply (Hnd12 a Hin), elem_of_cons. by left. }
  assert (∀ x, x ∈ b :: l2 → x ∉ l1) as Hl21.
  { intros x Hx Hin. apply (Hnd12 x Hin), elem_of_cons. by right. }
  assert (z ∈ b :: l2) as Hz.
  { rewrite Ez. apply elem_of_app. right. apply elem_of_cons. by left. }
  assert (z ≠ a) as Hza by (by intros ->).
  assert (z ∉ lz) as Hzlz.
  { rewrite Ez in Hnd2. apply NoDup_app in Hnd2 as (_ & Hnd2 & _).
    intros Hin. apply (Hnd2 z Hin), elem_of_cons. by left. }
  split; unfold deref;
    cbn [store __keys __oldest __newest keys_proto links_older links_newer];
    try done.
  - apply NoDup_app. split_and!; [done| |].
    + intros x Hx [Hx'| ->%list_elem_of_singleton]%elem_of_app; [|done].
      by apply (Hl21 x).
    + apply NoDup_app. split_and!; [done| |apply NoDup_singleton].
      by intros x Hx ->%list_elem_of_singleton.
  - apply dseg_app. split; [|apply dseg_app; split]; cbn [first_or app].
    + apply dseg_alter_frame; [by apply Hl21|].
      by do 2 (apply dseg_alter_frame; [done|]).
    + rewrite Ez.
      apply (dseg_write_newer _ z lz (last_or l1 None) None (Some a));
        [done|]. rewrite <-Ez.
      by do 2 (apply dseg_alter_frame; [done|]).
    + rewrite Ez, last_or_snoc.
      apply dseg_alter_frame; [by intros ->%list_elem_of_singleton|].
      apply dseg_singleton.
      exists (with_older (VEntry z) (with_newer VNull ea)).
      split_and!; [|done..].
      rewrite list_lookup_alter_eq. simpl.
      by rewrite list_lookup_alter_eq, Hea.
  - by destruct l1.
  - by rewrite !app_assoc, last_snoc.
  - intros k a0 Hk. destruct (Hi _ _ Hk) as [Ha0 Hkey]. split.
    + rewrite !elem_of_app, list_elem_of_singleton.
      apply elem_of_app in Ha0 as [?|[->|?]%elem_of_cons]; auto.
    + by kv_simpl.
  - intros a0 Ha0. kv_simpl. apply Hks.
    rewrite !elem_of_app, list_elem_of_singleton in Ha0.
    rewrite elem_of_app, elem_of_cons. tauto.
Qed.

(** The three steps of the relinking, on entries. *)
Lemma unlink_newer_entry a b c :
  newer (deref c a) = VEntry b →
  unlink_newer (VEntry a) c =
  put_older (VEntry b) (older (deref c a))
    (if bool_decide (VEntry a = __oldest c) then set_oldest (VEntry b) c
     else c).
Proof.
  intros Hn. unfold unlink_newer. cbn [get_field]. rewrite Hn. cbn [truthy].
  cbv zeta. destruct (bool_decide _).
  - change (deref (set_oldest ?x c) a) with (deref c a). by rewrite Hn.
  - by rewrite Hn.
Qed.

Lemma unlink_older_entry a o c :
  older (deref c a) = ref o →
  unlink_older (VEntry a) c =
  match o with
  | Some p => put_newer (VEntry p) (newer (deref c a)) c
  | None => c
  end.
Proof.
  intros Ho. unfold unlink_older. cbn [get_field]. rewrite Ho.
  by destruct o.
Qed.

Lemma append_newest_entry a z c :
  __newest c = VEntry z →
  append_newest (VEntry a) c =
  set_newest (VEntry a)
    (put_newer (VEntry z) (VEntry a)
       (put_older (VEntry a) (VEntry z) (put_newer (VEntry a) VNull c))).
Proof.
  intros Hn. unfold append_newest. cbv zeta. cbn. by rewrite Hn.
Qed.

Lemma linked_append_newest c l1 a b l2 :
  NoDup (l1 ++ a :: b :: l2) →
  dseg (store c) None l1 (Some b) →
  dseg (store c) (last_or l1 None) (b :: l2) None →
  is_Some (store c !! a) →
  (∀ k a0, __keys c !! k = Some a0 →
           a0 ∈ l1 ++ a :: b :: l2 ∧ key (deref c a0) = k) →
  (∀ a0, a0 ∈ l1 ++ a :: b :: l2 → plain_key (key (deref c a0)) = true) →
  keys_proto c = None →
  links_older c !! FObjectPrototype = None →
  links_newer c !! FObjectPrototype = None →
  __oldest c = ref (head (l1 ++ b :: l2)) →
  __newest c = ref (last (b :: l2)) →
  linked (append_newest (VEntry a) c) (l1 ++ (b :: l2) ++ [a]).
Proof.
  intros Hnd Hd1 Hd2 Ha Hi Hks Hp Hlo Hln Ho Hn.
  assert (∃ lz z, b :: l2 = lz ++ [z]) as (lz & z & Ez).
  { destruct (last (b :: l2)) as [z|] eqn:Hz.
    - apply last_Some in Hz as [lz Hz]. eauto.
    - by apply last_None in Hz. }
  rewrite Ez, last_snoc in Hn. simpl in Hn.
  rewrite (append_newest_entry a z c Hn).
  destruct c as [h lo ln M sz ks kp old new hi mi]. cache_simpl. subst.
  by apply (linked_append_promoted h lo ln M sz ks hi mi l1 a b l2 lz z).
Qed.

Lemma linked_get_promote c l1 a b l2 :
  linked c (l1 ++ a :: b :: l2) →
  linked (get_promote (VEntry a) c) (l1 ++ (b :: l2) ++ [a]).
Proof.
  intros [Hnd Hd Ho Hn Hi Hks Hp Hlo Hln].
  apply dseg_app in Hd as [Hd1 (ea & Hea & Hoa & Hna & Hd2)].
  assert (deref c a = ea) as Hda by (unfold deref; by rewrite Hea).
  simpl in Hna.
  assert (__newest c = ref (last (b :: l2))) as Hn'.
  { rewrite Hn. f_equal. change (a :: b :: l2) with ([a] ++ (b :: l2)).
    rewrite app_assoc, last_app.
    destruct (last (b :: l2)) eqn:E; [done|by apply last_None in E]. }
  pose proof Hnd as Hnd'.
  apply NoDup_app in Hnd' as (Hnd1 & Hnd12 & Hnd2).
  apply NoDup_cons in Hnd2 as [Hab Hnd2].
  apply NoDup_cons in Hnd2 as [Hbl2 Hnd2].
  assert (b ≠ a) as Hba by (intros ->; apply Hab, elem_of_cons; by left).
  unfold get_promote.
  rewrite (unlink_newer_entry a b c) by (by rewrite Hda). rewrite Hda, Hoa.
  destruct l1 as [|p lp _] using rev_ind.
  - (* the entry is the oldest one *)
    simpl in Ho. rewrite Ho, bool_decide_eq_true_2 by done.
    cbn [last_or last ref].
    set (c1 := put_older (VEntry b) VNull (set_oldest (VEntry b) c)).
    assert (store c1 = alter (with_older VNull) b (store c)) as Es by done.
    assert (∀ x, key (deref c1 x) = key (deref c x)) as Ek.
    { intros x. unfold c1.
      by destruct (deref_put_older (VEntry b) VNull (set_oldest (VEntry b) c) x)
        as [-> _]. }
    assert (deref c1 a = ea) as Hda1.
    { unfold deref. by rewrite Es, list_lookup_alter_ne, Hea. }
    rewrite (unlink_older_entry a None c1) by (by rewrite Hda1).
    apply linked_append_newest; try done.
    + rewrite Es. by apply (dseg_write_older _ b l2 (Some a) None None).
    + rewrite Es, list_lookup_alter_ne, Hea by done. eauto.
    + intros k a0 Hk. rewrite Ek. by apply Hi.
    + intros a0 Ha0. rewrite Ek. by apply Hks.
  - (* the entry has an older neighbour [p] *)
    rewrite last_or_snoc in *. cbn [ref] in *.
    assert (p ∈ lp ++ [p]) as Hpin.
    { apply elem_of_app. right. apply elem_of_cons. by left. }
    assert (p ≠ a) as Hpa.
    { intros ->. apply (Hnd12 a Hpin), elem_of_cons. by left. }
    assert (p ∉ b :: l2) as Hpl2.
    { intros Hin. apply (Hnd12 p Hpin), elem_of_cons. by right. }
    assert (b ∉ lp ++ [p]) as Hbl1.
    { intros Hin. apply (Hnd12 b Hin), elem_of_cons. right.
      apply elem_of_cons. by left. }
    assert (__oldest c = ref (head ((lp ++ [p]) ++ b :: l2))) as Ho'.
    { rewrite Ho. by destruct lp. }
    assert (__oldest c ≠ VEntry a) as Hold.
    { rewrite Ho. rewrite <-!app_assoc. destruct lp; simpl; intros [= ->].
      - apply (Hnd12 a); apply elem_of_cons; by left.
      - apply (Hnd12 a); apply elem_of_cons; by left. }
    rewrite bool_decide_eq_false_2 by done.
    set (c1 := put_older (VEntry b) (VEntry p) c).
    assert (store c1 = alter (with_older (VEntry p)) b (store c)) as Es1 by done.
    assert (deref c1 a = ea) as Hda1.
    { unfold deref. by rewrite Es1, list_lookup_alter_ne, Hea. }
    rewrite (unlink_older_entry a (Some p) c1) by (by rewrite Hda1, Hoa).
    rewrite Hda1, Hna.
    set (c2 := put_newer (VEntry p) (VEntry b) c1).
    assert (store c2 =
            alter (with_newer (VEntry b)) p
              (alter (with_older (VEntry p)) b (store c))) as Es by done.
    assert (∀ x, key (deref c2 x) = key (deref c x)) as Ek.
    { intros x. unfold c2, c1.
      destruct (deref_put_newer (VEntry p) (VEntry b)
                  (put_older (VEntry b) (VEntry p) c) x) as [-> _].
      by destruct (deref_put_older (VEntry b) (VEntry p) c x) as [-> _]. }
    apply linked_append_newest; try done.
    + rewrite Es.
      apply (dseg_write_newer _ p lp None (Some a) (Some b)).
      * apply NoDup_app in Hnd1 as (_ & Hnd1 & _). intros Hin.
        apply (Hnd1 p Hin), elem_of_cons. by left.
      * apply dseg_alter_frame; [done|]. exact Hd1.
    + rewrite Es, last_or_snoc. apply dseg_alter_frame; [done|].
      by apply (dseg_write_older _ b l2 (Some a) (Some p) None).
    + rewrite Es, !list_lookup_alter_ne, Hea by done. eauto.
    + intros k a0 Hk. rewrite Ek. by apply Hi.
    + intros a0 Ha0. rewrite Ek. by apply Hks.
Qed.

Lemma chain_inv_set_hits n c l : chain_inv c l → chain_inv (set_hits n c) l.
Proof. intros [[] ? ?]. by split; [split|..]. Qed.

Lemma chain_inv_set_misses n c l : chain_inv c l → chain_inv (set_misses n c) l.
Proof. intros [[] ? ?]. by split; [split|..]. Qed.

(** [get] on a plain key keeps the chain, with the entry found moved to
    the newest end, and returns the value of that entry. *)
Lemma get_chain_inv k c l :
  plain_key k = true → chain_inv c l →
  match __keys c !! k with
  | None =>
    get k c = (set_misses (__misses c + 1) c, Normal VUndef) ∧
    chain_inv (get k c).1 l
  | Some a =>
    ∃ l1 l2, l = l1 ++ a :: l2 ∧ chain_inv (get k c).1 (l1 ++ l2 ++ [a]) ∧
             (get k c).2 = Normal (value (deref c a)) ∧
             __newest (get k c).1 = VEntry a
  end.
Proof.
  intros Hpk Hc. rewrite get_unfold. cbv zeta.
  rewrite (index_get_plain k c l (inv_linked _ _ Hc) Hpk).
  destruct (__keys c !! k) as [a|] eqn:Hk.
  - destruct (linked_index _ _ (inv_linked _ _ Hc) _ _ Hk) as [Ha _].
    apply list_elem_of_split in Ha as (l1 & l2 & ->). exists l1, l2.
    split; [done|]. destruct Hc as [Hl Hs Hm].
    pose proof (linked_newest _ _ Hl) as Hn.
    rewrite decide_False by done.
    destruct l2 as [|b l2].
    + rewrite last_snoc in Hn. rewrite decide_True by done. cbn.
      split_and!; try done. by apply chain_inv_set_hits.
    + assert (VEntry a ≠ __newest c) as Hne.
      { rewrite Hn. change (a :: b :: l2) with ([a] ++ b :: l2).
        rewrite app_assoc, last_app. simpl.
        destruct (last (b :: l2)) as [z|] eqn:Hz; [|by apply last_None in Hz].
        intros [= <-]. apply last_Some in Hz as [lz Hz].
        pose proof (linked_nodup _ _ Hl) as Hnd.
        apply NoDup_app in Hnd as (_ & _ & Hnd).
        apply NoDup_cons in Hnd as [Hnd _]. apply Hnd. rewrite Hz.
        apply elem_of_app. right. apply elem_of_cons. by left. }
      rewrite decide_False by done. cbn [nullish fst snd].
      destruct (counters_eq _ _ (counters_get_promote (VEntry a) c))
        as (Em & Es & _).
      pose proof (linked_get_promote _ _ _ _ _ Hl) as Hl'.
      split_and!.
      * apply chain_inv_set_hits. split; [done|..].
        -- rewrite Es, Hs. f_equal. rewrite !length_app. simpl.
           rewrite ?length_app. simpl. lia.
        -- by rewrite Em.
      * cbn [get_field]. f_equal.
        change (deref (set_hits ?n ?c') a) with (deref c' a).
        apply deref_get_promote.
      * cbn. rewrite (linked_newest _ _ Hl'). by rewrite !app_assoc, last_snoc.
  - rewrite decide_True by done. split; [done|]. by apply chain_inv_set_misses.
Qed.

(** ** Sequences of operations on plain keys never raise *)

Lemma exec_plain o c l :
  plain_op o = true → chain_inv c l →
  (exec o c).2 = Normal tt ∧ ∃ l', chain_inv (exec o c).1 l'.
Proof.
  intros Ho Hc. destruct o as [k|k v| | | | | | | |]; simpl; eauto.
  - pose proof (get_chain_inv k c l Ho Hc) as Hg. unfold mbind, M_bind.
    destruct (__keys c !! k).
    + destruct Hg as (l1 & l2 & _ & Hc' & Hr & _).
      destruct (get k c) as [c' r]. simpl in *. subst r. eauto.
    + destruct Hg as [-> Hc']. simpl. eauto.
  - pose proof Ho as Hk.
    unfold mbind, M_bind.
    destruct (decide (VNum (__size c) = __maxSize c)) as [Hfull|Hroom].
    + destruct (put_full c l k v Hk Hc Hfull) as (a & l0 & _ & Hr & _ & _ & Hc').
      destruct (put k v c) as [c' r]. simpl in *. subst r. eauto.
    + destruct (put_room c l k v Hk Hc Hroom) as [-> Hc']. simpl. eauto.
  - split; [done|]. exists []. by eapply chain_inv_clearAll.
Qed.

Lemma run_plain ops c l :
  forallb plain_op ops = true → chain_inv c l →
  Forall (λ r, r = Normal tt) (completions ops c) ∧
  ∃ l', chain_inv (run ops c) l'.
Proof.
  revert c l. induction ops as [|o ops IH]; intros c l Hops Hc; simpl.
  - split; [constructor|eauto].
  - simpl in Hops. apply andb_prop in Hops as [Ho Hops].
    destruct (exec_plain o c l Ho Hc) as [Hr [l1 Hc1]].
    destruct (IH _ l1 Hops Hc1) as [Hrs Hc']. split; [by constructor|done].
Qed.

(** ** The traversals on a well-linked cache *)

Lemma chain_inv_fuel c l : chain_inv c l → (length l ≤ enough c)%nat.
Proof.
  intros [[Hnd Hd _ _ _ _ _ _ _] _ _]. unfold enough.
  pose proof (dseg_length _ _ _ _ Hnd Hd). lia.
Qed.

Lemma chain_inv_keys c l :
  chain_inv c l →
  keys c = Some ((λ a, VStr (key (deref c a))) <$> reverse l).
Proof.
  intros Hc. unfold keys. rewrite (linked_newest _ _ (inv_linked _ _ Hc)).
  rewrite (keys_loop_dseg c l None);
    [done|by destruct Hc as [[]]|by apply chain_inv_fuel].
Qed.

Lemma chain_inv_values c l :
  chain_inv c l →
  values c = Some ((λ a, value (deref c a)) <$> reverse l).
Proof.
  intros Hc. unfold values. rewrite (linked_newest _ _ (inv_linked _ _ Hc)).
  rewrite (values_loop_dseg c l None);
    [done|by destruct Hc as [[]]|by apply chain_inv_fuel].
Qed.

Lemma chain_inv_forEach {W} (f : Call → W → Cache → W) context fuel c l s :
  chain_inv c l → (length l ≤ fuel)%nat →
  forEach (observer f) context fuel s c =
  Some (c, Normal (foldl (λ s a,
          f (mkCall (if truthy context then Some context else None)
                    [value (deref c a)]) s c) s (reverse l))).
Proof.
  intros Hc Hf. unfold forEach. rewrite (linked_newest _ _ (inv_linked _ _ Hc)).
  apply (forEach_loop_dseg c f context l None); [by destruct Hc as [[]]|done].
Qed.

(** ** forEach *)

Lemma forEach_loop_step {W} (f : Call → W → Cache → W) context fuel entry s c :
  truthy entry = true →
  forEach_loop (observer f) context (S fuel) entry s c =
  forEach_loop (observer f) context fuel (get_field FOlder c entry)
    (f (mkCall (if truthy context then Some context else None)
               [get_field FValue c entry]) s c) c.
Proof. intros H. simpl. rewrite H. by destruct (truthy context). Qed.

Lemma keys_loop_step fuel c entry acc :
  truthy entry = true →
  keys_loop (S fuel) c entry acc =
  keys_loop fuel c (get_field FOlder c entry) (acc ++ [get_field FKey c entry]).
Proof. intros H. simpl. by rewrite H. Qed.

Lemma forEach_loop_spent {W} (fn : Call → W → M W) context entry s c :
  truthy entry = true → forEach_loop fn context 0 entry s c = None.
Proof. intros H. simpl. by rewrite H. Qed.

Lemma keys_loop_spent c entry acc :
  truthy entry = true → keys_loop 0 c entry acc = None.
Proof. intros H. simpl. by rewrite H. Qed.

Lemma cyclic_cache_older :
  __newest cyclic_cache = VEntry 0%nat ∧
  get_field FOlder cyclic_cache (VEntry 0%nat) = VFun "toString" ∧
  get_field FOlder cyclic_cache (VFun "toString") = VObjectPrototype ∧
  get_field FOlder cyclic_cache VObjectPrototype = VEntry 0%nat.
Proof. by vm_compute. Qed.

Lemma forEach_loop_cyclic {W} (f : Call → W → Cache → W) context fuel entry s :
  entry ∈ [VEntry 0%nat; VFun "toString"; VObjectPrototype] →
  forEach_loop (observer f) context fuel entry s cyclic_cache = None.
Proof.
  revert entry s. induction fuel as [|fuel IH]; intros entry s He.
  - repeat (apply elem_of_cons in He as [->|He]);
      [apply forEach_loop_spent; reflexivity..|by apply elem_of_nil in He].
  - repeat (apply elem_of_cons in He as [->|He]);
      [| | |by apply elem_of_nil in He];
      (rewrite forEach_loop_step by reflexivity).
    + rewrite (proj1 (proj2 cyclic_cache_older)). apply IH.
      repeat constructor.
    + rewrite (proj1 (proj2 (proj2 cyclic_cache_older))). apply IH.
      repeat constructor.
    + rewrite (proj2 (proj2 (proj2 cyclic_cache_older))). apply IH.
      repeat constructor.
Qed.

Lemma keys_loop_cyclic fuel entry acc :
  entry ∈ [VEntry 0%nat; VFun "toString"; VObjectPrototype] →
  keys_loop fuel cyclic_cache entry acc = None.
Proof.
  revert entry acc. induction fuel as [|fuel IH]; intros entry acc He.
  - repeat (apply elem_of_cons in He as [->|He]);
      [apply keys_loop_spent; reflexivity..|by apply elem_of_nil in He].
  - repeat (apply elem_of_cons in He as [->|He]);
      [| | |by apply elem_of_nil in He];
      (rewrite keys_loop_step by reflexivity).
    + rewrite (proj1 (proj2 cyclic_cache_older)). apply IH.
      repeat constructor.
    + rewrite (proj1 (proj2 (proj2 cyclic_cache_older))). apply IH.
      repeat constructor.
    + rewrite (proj2 (proj2 (proj2 cyclic_cache_older))). apply IH.
      repeat constructor.
Qed.

(** C10, as the specification states it, fails in three ways.  A context that is
    supplied but falsy is not bound: [forEach(fn, 0)] calls [fn(value)]
    as a plain call.  A visitor that calls the cache changes the chain
    under the loop: on the chain [c, b, a] a visitor that calls [get(a)]
    is called for [c] and [b] and never for [a], which its first call
    has moved to the newest end.  And on a cache whose chain has been
    closed into a cycle by lookups of inherited names, [forEach] (like
    [keys()]) does not return, whatever the number of steps it is given. *)
Lemma forEach_claim_counterexample :
  (let c := (put "a" (VNum 1) (initLRU (VNum 2))).1 in
   forEach recorder (VNum 0) 5 [] c = Some (c, Normal [mkCall None [VNum 1]]) ∧
   forEach recorder (VNum 0) 5 [] c
     ≠ Some (c, Normal [mkCall (Some (VNum 0)) [VNum 1]])) ∧
  (values cache_cba = Some [VNum 3; VNum 2; VNum 1] ∧
   ('(c', r) ← forEach (looking_up "a") VUndef 5 [] cache_cba;
    Some (r, values c'))
   = Some (Normal [mkCall None [VNum 3]; mkCall None [VNum 2]],
           Some [VNum 1; VNum 3; VNum 2])) ∧
  (completions [OPut "a" (VNum 1); OGet "__proto__"; OGet "toString"; OGet "a"]
               (initLRU (VNum 4))
     = [Normal tt; Normal tt; Normal tt; Normal tt] ∧
   ∀ W (f : Call → W → Cache → W) context fuel s,
     forEach (observer f) context fuel s cyclic_cache = None ∧
     keys_loop fuel cyclic_cache (__newest cyclic_cache) [] = None).
Proof.
  split; [|split].
  - cbv zeta. split; [by vm_compute|]. vm_compute. by intros [=].
  - split; by vm_compute.
  - split; [by vm_compute|].
    intros W f context fuel s. unfold forEach.
    rewrite (proj1 cyclic_cache_older). split.
    + apply forEach_loop_cyclic. repeat constructor.
    + apply keys_loop_cyclic. repeat constructor.
Qed.

(** C10, amended. On a cache reached from a new one by operations whose
    keys name no member of [Object.prototype] (none of which raises), for
    every visitor that neither writes the cache nor raises, [forEach]
    returns, having called the visitor once per chain node, newest first,
    with the entry's value as the only argument; the receiver is the
    context when the context is truthy, and the call is a plain one
    otherwise.  [keys()] and [values()] list the same nodes in the same
    order, and there are [size()] of them. *)
Theorem forEach_visits_chain (m : jsval) (ops : list Op) :
  forallb plain_op ops = true →
  let c := run ops (initLRU m) in
  Forall (λ r, r = Normal tt) (completions ops (initLRU m)) ∧
  ∃ l, chain_inv c l ∧
    size c = Z.of_nat (length l) ∧
    keys c = Some ((λ a, VStr (key (deref c a))) <$> reverse l) ∧
    values c = Some ((λ a, value (deref c a)) <$> reverse l) ∧
    ∀ (W : Type) (f : Call → W → Cache → W) (context : jsval)
      (fuel : nat) (s : W),
      (length l ≤ fuel)%nat →
      forEach (observer f) context fuel s c =
      Some (c, Normal (foldl (λ s a,
              f (mkCall (if truthy context then Some context else None)
                        [value (deref c a)]) s c) s (reverse l))).
Proof.
  intros Hops c.
  destruct (run_plain ops _ [] Hops (chain_inv_initLRU m)) as [Hr [l Hc]].
  split; [done|]. exists l. split_and!; try done.
  - by destruct Hc.
  - by apply chain_inv_keys.
  - by apply chain_inv_values.
  - intros W f context fuel s Hf. by apply chain_inv_forEach.
Qed.

Lemma forEach_visits_chain_witness :
  ∃ l, values (run [OPut "a" (VNum 1); OPut "b" (VNum 2); OGet "a";
                    OPut "older" (VNum 3)] (initLRU (VNum 2)))
       = Some ((λ a, value (deref (run [OPut "a" (VNum 1); OPut "b" (VNum 2);
                  OGet "a"; OPut "older" (VNum 3)] (initLRU (VNum 2))) a))
               <$> reverse l).
Proof.
  destruct (forEach_visits_chain (VNum 2)
              [OPut "a" (VNum 1); OPut "b" (VNum 2); OGet "a";
               OPut "older" (VNum 3)])
    as (_ & l & _ & _ & _ & Hv & _).
  - reflexivity.
  - by exists l.
Defined.

(** ** Further properties of the operations *)

Lemma reachable_inv c : reachable c → ∃ l, chain_inv c l.
Proof.
  intros (m & ops & Hops & ->).
  by destruct (run_plain ops _ [] Hops (chain_inv_initLRU m)) as [_ Hc].
Qed.

Lemma reachable_cache_with_room : reachable cache_with_room.
Proof.
  by exists (VNum 3), [OPut "a" (VNum 1); OPut "b" (VNum 2); OGet "a"].
Defined.

Lemma reachable_cache_full : reachable cache_full.
Proof.
  by exists (VNum 2), [OPut "a" (VNum 1); OPut "b" (VNum 2); OGet "a"].
Defined.

(** *** What the steps leave of the index *)

Lemma index_put_older x v c : index_of (put_older x v c) = index_of c.
Proof. unfold put_older. destruct x; simpl; by try destruct (foreign_of _). Qed.

Lemma index_put_newer x v c : index_of (put_newer x v c) = index_of c.
Proof. unfold put_newer. destruct x; simpl; by try destruct (foreign_of _). Qed.

Lemma index_of_eq c c' :
  index_of c' = index_of c →
  __keys c' = __keys c ∧ keys_proto c' = keys_proto c.
Proof. by intros [= -> ->]. Qed.

Lemma index_get_promote x c : index_of (get_promote x c) = index_of c.
Proof.
  unfold get_promote, append_newest, unlink_older, unlink_newer. cbv zeta.
  change (index_of (set_newest ?y ?c')) with (index_of c').
  repeat match goal with
         | |- context [if ?g then _ else _] => destruct g
         | |- context [index_of (put_older ?y ?w ?c')] =>
           rewrite (index_put_older y w c')
         | |- context [index_of (put_newer ?y ?w ?c')] =>
           rewrite (index_put_newer y w c')
         | |- context [index_of (set_oldest ?y ?c')] =>
           change (index_of (set_oldest y c')) with (index_of c')
         end; done.
Qed.

(** What [get] leaves alone, on any state and for any key: the index, and
    the key and the value of every entry. *)
Lemma get_keeps k c :
  __keys (get k c).1 = __keys c ∧ keys_proto (get k c).1 = keys_proto c ∧
  ∀ b, key (deref (get k c).1 b) = key (deref c b) ∧
       value (deref (get k c).1 b) = value (deref c b).
Proof.
  rewrite get_unfold. cbv zeta.
  destruct (decide _); [done|]. destruct (decide _); [done|].
  destruct (nullish _); [done|]. cbn [fst].
  destruct (index_of_eq _ _ (index_get_promote (index_get k c) c)) as [Ek Ep].
  split_and!; try done. intros b.
  change (deref (set_hits ?h ?c') b) with (deref c' b).
  apply deref_get_promote.
Qed.

(** On a well-linked cache, what [get] returns for a plain key. *)
Lemma found_index k c l :
  chain_inv c l → plain_key k = true →
  found k c = Normal (match __keys c !! k with
                      | Some a => value (deref c a)
                      | None => VUndef
                      end).
Proof.
  intros Hc Hk. unfold found. pose proof (get_chain_inv k c l Hk Hc) as Hg.
  destruct (__keys c !! k) as [a|].
  - by destruct Hg as (l1 & l2 & _ & _ & -> & _).
  - by destruct Hg as [-> _].
Qed.

(** X1. On every state and for every key: when the index lookup yields an
    entry, [get] returns the value of that entry, adds 1 to [hits] and
    leaves [misses]; when the lookup yields [undefined] (no own property
    and no member inherited through the prototype of the index), it
    returns [undefined], adds 1 to [misses] and changes nothing else; when
    the lookup yields anything else (a member the index inherits),
    [misses] is left and [hits] grows by 1, unless [get] raises at once.
    The size is left in every case. *)
Theorem get_hit_miss_accounting (k : string) (c : Cache) :
  size (get k c).1 = size c ∧
  match index_get k c with
  | VUndef => get k c = (set_misses (misses c + 1) c, Normal VUndef)
  | VEntry entry =>
    (get k c).2 = Normal (value (deref c entry)) ∧
    hits (get k c).1 = hits c + 1 ∧ misses (get k c).1 = misses c
  | _ =>
    misses (get k c).1 = misses c ∧
    (hits (get k c).1 = hits c + 1 ∨ get k c = (c, Raised))
  end.
Proof.
  split; [by destruct (get_counters k c) as (_ & ? & _)|].
  apply get_accounting.
Qed.

(** X2. On a cache reached by operations on plain keys, [get] of a plain
    key disturbs no association: for every plain key, what a later [get]
    returns and what [peek] returns are as before, and [size()] is
    unchanged. *)
Theorem get_preserves_lookups (k k' : string) (c : Cache) :
  reachable c → plain_key k = true → plain_key k' = true →
  found k' (get k c).1 = found k' c ∧
  peek k' (get k c).1 = peek k' c ∧
  size (get k c).1 = size c.
Proof.
  intros [l Hc]%reachable_inv Hk Hk'.
  destruct (get_keeps k c) as (Ek & _ & Hkv).
  assert (∃ l', chain_inv (get k c).1 l') as [l' Hc'].
  { pose proof (get_chain_inv k c l Hk Hc) as Hg.
    destruct (__keys c !! k).
    - destruct Hg as (l1 & l2 & _ & Hg & _). eauto.
    - destruct Hg as [_ Hg]. eauto. }
  rewrite (found_index k' _ l' Hc' Hk'), (found_index k' c l Hc Hk').
  unfold peek.
  rewrite (index_get_plain k' _ l' (inv_linked _ _ Hc') Hk'),
    (index_get_plain k' c l (inv_linked _ _ Hc) Hk'), Ek.
  split_and!; [|done|by destruct (get_counters k c) as (_ & ? & _)].
  destruct (__keys c !! k'); [|done]. f_equal. apply Hkv.
Qed.

Lemma get_preserves_lookups_witness :
  found "a" (get "b" cache_with_room).1 = found "a" cache_with_room ∧
  peek "a" (get "b" cache_with_room).1 = peek "a" cache_with_room ∧
  size (get "b" cache_with_room).1 = size cache_with_room.
Proof.
  apply (get_preserves_lookups "b" "a" cache_with_room).
  - exact reachable_cache_with_room.
  - reflexivity.
  - reflexivity.
Defined.

(** X3. On a cache reached by operations on plain keys, a [get] repeated
    on the same plain key changes nothing but one counter: after a first
    [get] the entry found is the newest, so the second one only adds 1 to
    [hits] and returns the same value; on a key that is not in the index
    it only adds 1 to [misses]. *)
Theorem get_twice (k : string) (c : Cache) :
  reachable c → plain_key k = true →
  let c1 := (get k c).1 in
  match __keys c !! k with
  | Some _ => get k c1 = (set_hits (hits c1 + 1) c1, found k c)
  | None => get k c1 = (set_misses (misses c1 + 1) c1, Normal VUndef)
  end.
Proof.
  intros [l Hc]%reachable_inv Hk. cbv zeta.
  destruct (get_keeps k c) as (Ek & _ & Hkv).
  pose proof (get_chain_inv k c l Hk Hc) as Hg.
  rewrite (found_index k c l Hc Hk).
  destruct (__keys c !! k) as [a|] eqn:Ha.
  - destruct Hg as (l1 & l2 & _ & Hc' & _ & Hn).
    rewrite (get_unfold k (get k c).1). cbv zeta.
    rewrite (index_get_plain k _ _ (inv_linked _ _ Hc') Hk), Ek, Ha.
    rewrite decide_False by done. rewrite decide_True by done.
    cbn [nullish get_field]. do 2 f_equal.
    change (deref (set_hits ?h ?c') a) with (deref c' a). apply Hkv.
  - destruct Hg as [_ Hc'].
    rewrite (get_unfold k (get k c).1). cbv zeta.
    rewrite (index_get_plain k _ _ (inv_linked _ _ Hc') Hk), Ek, Ha.
    by rewrite decide_True.
Qed.

Lemma get_twice_witness :
  get "b" (get "b" cache_with_room).1
  = (set_hits (hits (get "b" cache_with_room).1 + 1)
       (get "b" cache_with_room).1,
     found "b" cache_with_room).
Proof.
  apply (get_twice "b" cache_with_room).
  - exact reachable_cache_with_room.
  - reflexivity.
Defined.

(** *** The whole effect of put *)

Lemma put_insert_index k v c :
  plain_key k = true →
  __keys (put_insert k v c) = <[k := length (store c)]> (__keys c).
Proof.
  intros Hk%plain_key_proto. unfold put_insert. cbv zeta.
  change (__keys (set_newest ?x ?c')) with (__keys c').
  assert (∀ c', __keys (index_set k (length (store c)) c')
                = <[k := length (store c)]> (__keys c')) as Ei.
  { intros c'. unfold index_set. by rewrite Hk. }
  destruct (truthy (__newest c)).
  - destruct (index_of_eq _ _
      (index_put_newer (__newest c) (VEntry (length (store c)))
         (index_set k (length (store c))
            (set_store
               (store c ++ [createCacheEntry k v (__newest c) VNull]) c))))
      as [-> _].
    by rewrite Ei.
  - change (__keys (set_oldest ?x ?c')) with (__keys c'). by rewrite Ei.
Qed.

Lemma put_insert_new k v c :
  key (deref (put_insert k v c) (length (store c))) = k ∧
  value (deref (put_insert k v c) (length (store c))) = v.
Proof.
  unfold put_insert. cbv zeta.
  change (deref (set_newest ?x ?c') ?a) with (deref c' a).
  assert (∀ c' a, deref (index_set k (length (store c)) c') a = deref c' a)
    as Ei.
  { intros c' a. unfold index_set. by destruct (String.eqb _ _). }
  destruct (truthy (__newest c)).
  - destruct (deref_put_newer (__newest c) (VEntry (length (store c)))
      (index_set k (length (store c))
         (set_store (store c ++ [createCacheEntry k v (__newest c) VNull]) c))
      (length (store c))) as [-> ->].
    rewrite Ei. unfold deref. simpl.
    by rewrite (list_lookup_middle (store c) []).
  - change (deref (set_oldest ?x ?c') ?a) with (deref c' a).
    rewrite Ei. unfold deref. simpl.
    by rewrite (list_lookup_middle (store c) []).
Qed.

Lemma put_remove_index r c :
  plain_key (key (deref c r)) = true →
  __keys (put_remove (VEntry r) c) = delete (key (deref c r)) (__keys c).
Proof.
  intros Hk%plain_key_proto. unfold put_remove. cbv zeta.
  cbn [get_field property_key].
  set (c3 := put_older (VEntry r) VNull
               (put_newer (VEntry r) VNull (put_older (__oldest c) VNull c))).
  assert (key (deref c3 r) = key (deref c r)) as Ek.
  { unfold c3.
    destruct (deref_put_older (VEntry r) VNull
      (put_newer (VEntry r) VNull (put_older (__oldest c) VNull c)) r)
      as [-> _].
    destruct (deref_put_newer (VEntry r) VNull
      (put_older (__oldest c) VNull c) r) as [-> _].
    by destruct (deref_put_older (__oldest c) VNull c r) as [-> _]. }
  assert (__keys c3 = __keys c) as Ei.
  { unfold c3.
    destruct (index_of_eq _ _ (index_put_older (VEntry r) VNull
      (put_newer (VEntry r) VNull (put_older (__oldest c) VNull c))))
      as [-> _].
    destruct (index_of_eq _ _ (index_put_newer (VEntry r) VNull
      (put_older (__oldest c) VNull c))) as [-> _].
    by destruct (index_of_eq _ _ (index_put_older (__oldest c) VNull c))
      as [-> _]. }
  rewrite Ek. unfold index_delete. rewrite Hk.
  change (__keys (set_keys ?m ?c')) with m. by rewrite Ei.
Qed.

Lemma put_effect k v c l :
  plain_key k = true → chain_inv c l →
  ∃ l',
    chain_inv (put k v c).1 (l' ++ [length (store c)]) ∧
    (∀ a, a ∈ l → key (deref (put k v c).1 a) = key (deref c a) ∧
                  value (deref (put k v c).1 a) = value (deref c a)) ∧
    key (deref (put k v c).1 (length (store c))) = k ∧
    value (deref (put k v c).1 (length (store c))) = v ∧
    if decide (VNum (__size c) = __maxSize c)
    then ∃ a0, l = a0 :: l' ∧ (put k v c).2 = Normal (value (deref c a0)) ∧
               __keys (put k v c).1
                 = delete (key (deref c a0))
                          (<[k := length (store c)]> (__keys c)) ∧
               __size (put k v c).1 = __size c
    else l' = l ∧ (put k v c).2 = Normal VUndef ∧
         __keys (put k v c).1 = <[k := length (store c)]> (__keys c) ∧
         __size (put k v c).1 = __size c + 1.
Proof.
  intros Hk Hc.
  pose proof (λ a, linked_allocated c l a (inv_linked _ _ Hc)) as Hal.
  destruct (put_insert_new k v c) as [Hnk Hnv].
  destruct (put_counters k v c) as (_ & _ & _ & Es).
  destruct (decide (VNum (__size c) = __maxSize c)) as [Hfull|Hroom].
  - destruct (put_full c l k v Hk Hc Hfull)
      as (a & l0 & -> & Hr & Hka & Hput & Hc').
    pose proof Es as Es'.
    exists l0. split; [done|]. rewrite Hput in Es' |- *.
    set (c1 := set_oldest (ref (head (l0 ++ [length (store c)])))
                 (put_insert k v c)).
    assert (∀ b, deref c1 b = deref (put_insert k v c) b) as Ed by done.
    assert (a ∈ a :: l0) as Hain by (apply elem_of_cons; by left).
    split_and!.
    + intros b Hb. destruct (deref_put_remove (VEntry a) c1 b) as [-> ->].
      rewrite Ed. by destruct (put_insert_value k v c b (Hal b Hb)) as [-> ->].
    + destruct (deref_put_remove (VEntry a) c1 (length (store c))) as [-> _].
      by rewrite Ed.
    + destruct (deref_put_remove (VEntry a) c1 (length (store c))) as [_ ->].
      by rewrite Ed.
    + exists a. split_and!; [done|done| |done].
      rewrite put_remove_index.
      * rewrite Ed, Hka. f_equal.
        change (__keys c1) with (__keys (put_insert k v c)).
        by apply put_insert_index.
      * rewrite Ed, Hka.
        apply (linked_keys _ _ (inv_linked _ _ Hc)), Hain.
  - destruct (put_room c l k v Hk Hc Hroom) as [Hput Hc'].
    pose proof Es as Es'.
    exists l. split; [done|]. rewrite Hput in Es' |- *. cbn [fst snd].
    change (deref (set_size ?n ?c') ?a) with (deref c' a).
    split_and!; try done.
    + intros b Hb.
      by destruct (put_insert_value k v c b (Hal b Hb)) as [-> ->].
    + cbn. by apply put_insert_index.
Qed.

Lemma fmap_reverse_agree {B} (f g : nat → B) (l : list nat) :
  (∀ a, a ∈ l → f a = g a) → f <$> reverse l = g <$> reverse l.
Proof.
  intros Hfg. apply list_fmap_ext. intros i a Ha. apply Hfg.
  apply elem_of_reverse, list_elem_of_lookup. eauto.
Qed.

(** X4. On a cache reached by operations on plain keys whose size differs
    from [maxSize], [put(k, v)] with a plain key returns [undefined], adds
    1 to [size()] and puts [k] and [v] in front of [keys()] and
    [values()], which are otherwise unchanged. *)
Theorem put_with_room (k : string) (v : jsval) (c : Cache) :
  reachable c → plain_key k = true → VNum (size c) ≠ __maxSize c →
  ∃ c' ks vs,
    keys c = Some ks ∧ values c = Some vs ∧
    put k v c = (c', Normal VUndef) ∧ size c' = size c + 1 ∧
    keys c' = Some (VStr k :: ks) ∧ values c' = Some (v :: vs).
Proof.
  intros [l Hc]%reachable_inv Hk Hroom.
  destruct (put_effect k v c l Hk Hc) as (l' & Hc' & Hkv & Hnk & Hnv & H).
  unfold size in *. rewrite decide_False in H by done.
  destruct H as (-> & Hr & _ & Es).
  exists (put k v c).1, ((λ a, VStr (key (deref c a))) <$> reverse l),
    ((λ a, value (deref c a)) <$> reverse l).
  rewrite (chain_inv_keys c l), (chain_inv_values c l) by done.
  rewrite (chain_inv_keys _ _ Hc'), (chain_inv_values _ _ Hc').
  rewrite reverse_snoc, !fmap_cons, Hnk, Hnv.
  split_and!; try done.
  - rewrite <-Hr. by destruct (put k v c).
  - do 2 f_equal. apply fmap_reverse_agree. intros a Ha.
    by destruct (Hkv a Ha) as [-> _].
  - do 2 f_equal. apply fmap_reverse_agree. intros a Ha. by apply Hkv.
Qed.

Lemma put_with_room_witness :
  ∃ c' ks vs,
    keys cache_with_room = Some ks ∧ values cache_with_room = Some vs ∧
    put "c" (VNum 3) cache_with_room = (c', Normal VUndef) ∧
    size c' = size cache_with_room + 1 ∧
    keys c' = Some (VStr "c" :: ks) ∧ values c' = Some (VNum 3 :: vs).
Proof.
  apply (put_with_room "c" (VNum 3) cache_with_room).
  - exact reachable_cache_with_room.
  - reflexivity.
  - vm_compute. by intros [=].
Defined.

(** X5. On a cache reached by operations on plain keys whose size equals
    [maxSize], [put(k, v)] with a plain key removes the last entry of
    [keys()] and [values()], the least recently used one, and returns its
    value; [k] and [v] come in front, [size()] is unchanged, and the key
    of the removed entry is no longer found. *)
Theorem put_when_full (k : string) (v : jsval) (c : Cache) :
  reachable c → plain_key k = true → VNum (size c) = __maxSize c →
  ∃ c' ks k0 vs v0,
    keys c = Some (ks ++ [VStr k0]) ∧ values c = Some (vs ++ [v0]) ∧
    put k v c = (c', Normal v0) ∧ size c' = size c ∧
    keys c' = Some (VStr k :: ks) ∧ values c' = Some (v :: vs) ∧
    found k0 c' = Normal VUndef.
Proof.
  intros [l Hc]%reachable_inv Hk Hfull.
  destruct (put_effect k v c l Hk Hc) as (l' & Hc' & Hkv & Hnk & Hnv & H).
  unfold size in *. rewrite decide_True in H by done.
  destruct H as (a0 & -> & Hr & Ek & Es).
  exists (put k v c).1, ((λ a, VStr (key (deref c a))) <$> reverse l'),
    (key (deref c a0)),
    ((λ a, value (deref c a)) <$> reverse l'), (value (deref c a0)).
  rewrite (chain_inv_keys c _ Hc), (chain_inv_values c _ Hc).
  rewrite (chain_inv_keys _ _ Hc'), (chain_inv_values _ _ Hc').
  rewrite reverse_snoc, reverse_cons, !fmap_cons, !fmap_snoc, Hnk, Hnv.
  assert (∀ a, a ∈ l' → a ∈ a0 :: l') as Hin
    by (intros; apply elem_of_cons; by right).
  split_and!; try done.
  - rewrite <-Hr. by destruct (put k v c).
  - do 2 f_equal. apply fmap_reverse_agree. intros a Ha.
    by destruct (Hkv a (Hin a Ha)) as [-> _].
  - do 2 f_equal. apply fmap_reverse_agree. intros a Ha. by apply Hkv, Hin.
  - rewrite (found_index _ _ _ Hc'), Ek, lookup_delete_eq; [done|].
    apply (linked_keys _ _ (inv_linked _ _ Hc)), elem_of_cons. by left.
Qed.

Lemma put_when_full_witness :
  ∃ c' ks k0 vs v0,
    keys cache_full = Some (ks ++ [VStr k0]) ∧
    values cache_full = Some (vs ++ [v0]) ∧
    put "c" (VNum 3) cache_full = (c', Normal v0) ∧
    size c' = size cache_full ∧
    keys c' = Some (VStr "c" :: ks) ∧ values c' = Some (VNum 3 :: vs) ∧
    found k0 c' = Normal VUndef.
Proof.
  apply (put_when_full "c" (VNum 3) cache_full).
  - exact reachable_cache_full.
  - reflexivity.
  - vm_compute. reflexivity.
Defined.

(** X6. On a cache reached by operations on plain keys, [put(k, v)] with a
    plain key never raises, and afterwards [get] of a plain key returns:
    [undefined] for the key of the entry the [put] has removed (the last
    of [keys()], when the cache was full), else [v] for [k], else what it
    returned before. *)
Theorem put_lookup (k : string) (v : jsval) (c : Cache) :
  reachable c → plain_key k = true →
  (put k v c).2 ≠ Raised ∧
  ∀ k', plain_key k' = true →
    found k' (put k v c).1 =
    if decide (VNum (size c) = __maxSize c ∧
               keys c ≫= last = Some (VStr k'))
    then Normal VUndef
    else if decide (k' = k) then Normal v else found k' c.
Proof.
  intros [l Hc]%reachable_inv Hk.
  destruct (put_effect k v c l Hk Hc) as (l' & Hc' & Hkv & Hnk & Hnv & H).
  split.
  { destruct (decide _); [destruct H as (? & _ & -> & _)|
                          destruct H as (_ & -> & _)]; done. }
  intros k' Hk'.
  rewrite (chain_inv_keys c l Hc). simpl. rewrite fmap_last, last_reverse.
  rewrite (found_index k' _ _ Hc' Hk'), (found_index k' c l Hc Hk').
  unfold size.
  assert (∀ a, __keys c !! k' = Some a →
               value (deref (put k v c).1 a) = value (deref c a)) as Hold.
  { intros a Ha. apply Hkv.
    by destruct (linked_index _ _ (inv_linked _ _ Hc) _ _ Ha). }
  destruct (decide (VNum (__size c) = __maxSize c)) as [Hfull|Hroom].
  - destruct H as (a0 & -> & _ & -> & _). simpl.
    destruct (decide (key (deref c a0) = k')) as [<-|Hne].
    + rewrite decide_True by done. by rewrite lookup_delete_eq.
    + rewrite decide_False by (intros [_ [=]]; done).
      rewrite lookup_delete_ne by done. rewrite lookup_insert.
      destruct (decide (k = k')) as [<-|Hkk].
      * by rewrite decide_True, Hnv.
      * rewrite decide_False by done.
        destruct (__keys c !! k') as [a|] eqn:Ha; [|done].
        f_equal. by apply Hold.
  - destruct H as (-> & _ & -> & _).
    rewrite decide_False by (by intros [? _]).
    rewrite lookup_insert.
    destruct (decide (k = k')) as [<-|Hkk].
    + by rewrite decide_True, Hnv.
    + rewrite decide_False by done.
      destruct (__keys c !! k') as [a|] eqn:Ha; [|done].
      f_equal. by apply Hold.
Qed.

Lemma put_lookup_witness :
  (put "a" (VNum 7) cache_full).2 ≠ Raised ∧
  ∀ k', plain_key k' = true →
    found k' (put "a" (VNum 7) cache_full).1 =
    if decide (VNum (size cache_full) = __maxSize cache_full ∧
               keys cache_full ≫= last = Some (VStr k'))
    then Normal VUndef
    else if decide (k' = "a") then Normal (VNum 7) else found k' cache_full.
Proof.
  apply (put_lookup "a" (VNum 7) cache_full).
  - exact reachable_cache_full.
  - reflexivity.
Defined.

(** X7. On a cache reached by operations on plain keys, a [get] that
    finds its plain key moves that entry to the front of [keys()] and
    [values()] and leaves the order of the other entries. *)
Theorem get_moves_to_front (k : string) (c : Cache) :
  reachable c → plain_key k = true → peek k c ≠ VUndef →
  ∃ v ks1 ks2 vs1 vs2,
    found k c = Normal v ∧
    keys c = Some (ks1 ++ VStr k :: ks2) ∧
    values c = Some (vs1 ++ v :: vs2) ∧
    length ks1 = length vs1 ∧
    keys (get k c).1 = Some (VStr k :: ks1 ++ ks2) ∧
    values (get k c).1 = Some (v :: vs1 ++ vs2).
Proof.
  intros [l Hc]%reachable_inv Hk Hpeek.
  pose proof (get_chain_inv k c l Hk Hc) as Hg.
  rewrite (found_index k c l Hc Hk). unfold peek in Hpeek.
  rewrite (index_get_plain k c l (inv_linked _ _ Hc) Hk) in Hpeek.
  destruct (__keys c !! k) as [a|] eqn:Ha; [|done].
  destruct Hg as (l1 & l2 & -> & Hc' & _).
  destruct (linked_index _ _ (inv_linked _ _ Hc) _ _ Ha) as [_ Hka].
  destruct (get_keeps k c) as (_ & _ & Hkv).
  exists (value (deref c a)),
    ((λ a, VStr (key (deref c a))) <$> reverse l2),
    ((λ a, VStr (key (deref c a))) <$> reverse l1),
    ((λ a, value (deref c a)) <$> reverse l2),
    ((λ a, value (deref c a)) <$> reverse l1).
  rewrite (chain_inv_keys c _ Hc), (chain_inv_values c _ Hc).
  rewrite (chain_inv_keys _ _ Hc'), (chain_inv_values _ _ Hc').
  rewrite !reverse_app, reverse_cons, reverse_singleton. simpl.
  rewrite <-!app_assoc. simpl. rewrite !fmap_app, !fmap_cons, Hka.
  destruct (Hkv a) as [-> ->]. rewrite Hka.
  split_and!; try done.
  - by rewrite !length_fmap.
  - do 2 f_equal. f_equal; apply list_fmap_ext; intros i b _;
      by destruct (Hkv b) as [-> _].
  - do 2 f_equal. f_equal; apply list_fmap_ext; intros i b _; apply Hkv.
Qed.

Lemma get_moves_to_front_witness :
  ∃ v ks1 ks2 vs1 vs2,
    found "b" cache_with_room = Normal v ∧
    keys cache_with_room = Some (ks1 ++ VStr "b" :: ks2) ∧
    values cache_with_room = Some (vs1 ++ v :: vs2) ∧
    length ks1 = length vs1 ∧
    keys (get "b" cache_with_room).1 = Some (VStr "b" :: ks1 ++ ks2) ∧
    values (get "b" cache_with_room).1 = Some (v :: vs1 ++ vs2).
Proof.
  apply (get_moves_to_front "b" cache_with_room).
  - exact reachable_cache_with_room.
  - reflexivity.
  - vm_compute. by intros [=].
Defined.

(** *** Counting *)

Lemma exec_get k c : (exec (OGet k) c).1 = (get k c).1.
Proof. simpl. unfold mbind, M_bind. by destruct (get k c) as [? []]. Qed.

Lemma exec_put k v c : (exec (OPut k v) c).1 = (put k v c).1.
Proof. simpl. unfold mbind, M_bind. by destruct (put k v c) as [? []]. Qed.

Lemma run_cons o ops c : run (o :: ops) c = run ops (exec o c).1.
Proof. done. Qed.

Lemma run_counts_gets ops c0 l0 :
  forallb plain_op ops = true → chain_inv c0 l0 →
  0 ≤ hits c0 → 0 ≤ misses c0 →
  hits (run ops c0) + misses (run ops c0)
    = gets_since_clear ops (hits c0 + misses c0) ∧
  0 ≤ hits (run ops c0) ∧ 0 ≤ misses (run ops c0).
Proof.
  revert c0 l0. induction ops as [|o ops IH]; intros c0 l0 Hops Hc Hh Hm;
    [done|].
  simpl in Hops. apply andb_prop in Hops as [Ho Hops].
  destruct (exec_plain o c0 l0 Ho Hc) as [_ [l1 Hc1]].
  rewrite run_cons.
  destruct o as [k|k v| | | | | | | |];
    try (by apply (IH c0 l0)).
  - rewrite exec_get in *. simpl in Ho.
    pose proof (get_accounting k c0) as Hg.
    rewrite (index_get_plain k c0 l0 (inv_linked _ _ Hc) Ho) in Hg.
    unfold hits, misses in *.
    assert (__hits (get k c0).1 + __misses (get k c0).1
            = __hits c0 + __misses c0 + 1 ∧
            0 ≤ __hits (get k c0).1 ∧ 0 ≤ __misses (get k c0).1)
      as (E & ? & ?).
    { destruct (__keys c0 !! k).
      - destruct Hg as (_ & -> & ->). lia.
      - rewrite Hg. simpl. lia. }
    destruct (IH _ l1 Hops Hc1) as (Hr & ? & ?); [done..|].
    rewrite Hr. simpl. by rewrite E.
  - rewrite exec_put in *. unfold hits, misses in *.
    destruct (put_counters k v c0) as (_ & Eh & Em & _).
    destruct (IH _ l1 Hops Hc1) as (Hr & ? & ?); [lia..|].
    rewrite Hr, Eh, Em. by split_and!.
  - by apply (IH (clearAll c0) l1).
Qed.

(** X8. After any sequence of operations on plain keys, [hits() +
    misses()] is the number of [get] calls since the cache was
    constructed or last cleared, and neither counter is negative. *)
Theorem lookups_are_counted (m : jsval) (ops : list Op) :
  forallb plain_op ops = true →
  let c := run ops (initLRU m) in
  hits c + misses c = gets_since_clear ops 0 ∧ 0 ≤ hits c ∧ 0 ≤ misses c.
Proof.
  intros Hops.
  by apply (run_counts_gets ops (initLRU m) []);
    [|apply chain_inv_initLRU|..].
Qed.

Lemma lookups_are_counted_witness :
  let c := run [OPut "a" (VNum 1); OGet "a"; OGet "b"; OClearAll; OGet "a"]
               (initLRU (VNum 2)) in
  hits c + misses c
    = gets_since_clear [OPut "a" (VNum 1); OGet "a"; OGet "b"; OClearAll;
                        OGet "a"] 0 ∧
  0 ≤ hits c ∧ 0 ≤ misses c.
Proof. apply (lookups_are_counted (VNum 2)). reflexivity. Defined.

Lemma run_counts_puts ops c0 :
  (∀ n, __maxSize c0 = VNum n → n < 0) → 0 ≤ size c0 →
  size (run ops c0) = puts_since_clear ops (size c0).
Proof.
  revert c0. induction ops as [|o ops IH]; intros c0 Hm Hs; [done|].
  assert (VNum (size c0) ≠ __maxSize c0) as Hne.
  { intros Heq. pose proof (Hm _ (eq_sym Heq)). lia. }
  rewrite run_cons.
  destruct o as [k|k v| | | | | | | |]; try (by apply IH).
  - rewrite exec_get. destruct (get_counters k c0) as (Em & Es & _).
    unfold size in *. rewrite IH; [by rewrite Es|by rewrite Em|by rewrite Es].
  - rewrite exec_put. destruct (put_counters k v c0) as (Em & _ & _ & Es).
    unfold size in *. rewrite decide_False in Es by done.
    rewrite IH; [by rewrite Es|by rewrite Em|rewrite Es; lia].
Qed.

(** X9. A truthy [maxSize] that is not a non-negative number (a negative
    number, a string, [true], an object) is stored as it is and never
    equals the size: nothing is ever evicted, and after any sequence of
    operations [size()] is the number of [put] calls since the last
    [clearAll]. *)
Theorem size_unbounded_without_capacity (m : jsval) (ops : list Op) :
  (∀ n, __maxSize (initLRU m) = VNum n → n < 0) →
  size (run ops (initLRU m)) = puts_since_clear ops 0.
Proof. intros Hm. by apply (run_counts_puts ops (initLRU m)). Qed.

Lemma size_unbounded_without_capacity_witness :
  size (run [OPut "a" (VNum 1); OGet "toString"; OPut "b" (VNum 2);
             OPut "c" (VNum 3)] (initLRU (VStr "2")))
  = puts_since_clear [OPut "a" (VNum 1); OGet "toString"; OPut "b" (VNum 2);
                      OPut "c" (VNum 3)] 0.
Proof.
  apply (size_unbounded_without_capacity (VStr "2")).
  vm_compute. by intros n [=].
Defined.

(** X10. With [maxSize] omitted or falsy the capacity is 4: after every
    operation of every sequence, [0 <= size() <= 4]. *)
Theorem default_capacity (m : jsval) (ops : list Op) (n : nat) :
  truthy m = false →
  0 ≤ size (run (take n ops) (initLRU m)) ≤ 4.
Proof.
  intros Hm. apply (run_capacity 4); [done| |simpl; lia].
  simpl. unfold js_or. by rewrite Hm.
Qed.

Lemma default_capacity_witness :
  0 ≤ size (run (take 6 [OPut "a" (VNum 1); OPut "b" (VNum 2);
                         OPut "c" (VNum 3); OPut "d" (VNum 4);
                         OPut "e" (VNum 5); OPut "f" (VNum 6)])
                (initLRU VUndef)) ≤ 4.
Proof. apply (default_capacity VUndef _ 6). reflexivity. Defined.

(** X11. Whatever the state and the key, a [put] on a cache whose size
    differs from [maxSize] does not raise: it returns [undefined] and
    adds 1 to [size()]. *)
Theorem put_with_room_returns (k : string) (v : jsval) (c : Cache) :
  VNum (size c) ≠ __maxSize c →
  (put k v c).2 = Normal VUndef ∧ size (put k v c).1 = size c + 1.
Proof.
  intros Hne. rewrite put_unfold. cbv zeta.
  destruct (counters_eq _ _ (counters_put_insert k v c)) as (Em & Es & _).
  unfold size in *. by rewrite Em, Es, decide_False.
Qed.

Lemma put_with_room_returns_witness :
  (put "__proto__" (VNum 1) (initLRU (VNum 2))).2 = Normal VUndef ∧
  size (put "__proto__" (VNum 1) (initLRU (VNum 2))).1
    = size (initLRU (VNum 2)) + 1.
Proof.
  apply (put_with_room_returns "__proto__" (VNum 1) (initLRU (VNum 2))).
  vm_compute. by intros [=].
Defined.

Lemma index_bound c l :
  chain_inv c l → Z.of_nat (length (map_to_list (__keys c))) ≤ size c.
Proof.
  intros [Hl Hs _]. unfold size. rewrite Hs.
  apply inj_le. rewrite <-(length_fmap snd).
  apply submseteq_length, NoDup_submseteq.
  - apply NoDup_fmap_2_strong; [|apply NoDup_map_to_list].
    intros [k1 a1] [k2 a2] H1%elem_of_map_to_list H2%elem_of_map_to_list.
    simpl. intros <-.
    destruct (linked_index _ _ Hl _ _ H1) as [_ <-].
    by destruct (linked_index _ _ Hl _ _ H2) as [_ <-].
  - intros a [[k a'] [-> Hka%elem_of_map_to_list]]%list_elem_of_fmap.
    by destruct (linked_index _ _ Hl _ _ Hka).
Qed.

(** X12. On a cache reached by operations on plain keys the index never
    holds more keys than [size()]. *)
Theorem index_within_size (c : Cache) :
  reachable c → Z.of_nat (length (map_to_list (__keys c))) ≤ size c.
Proof. intros [l Hc]%reachable_inv. by apply (index_bound c l). Qed.

Lemma index_within_size_witness :
  Z.of_nat (length (map_to_list (__keys cache_full))) ≤ size cache_full.
Proof. apply index_within_size, reachable_cache_full. Defined.

(** *** Caches on which no key was overwritten *)

Lemma fully_indexed_get k c l :
  plain_key k = true → chain_inv c l → fully_indexed c l →
  ∃ l', chain_inv (get k c).1 l' ∧ fully_indexed (get k c).1 l'.
Proof.
  intros Hk Hc Hfi. pose proof (get_chain_inv k c l Hk Hc) as Hg.
  destruct (get_keeps k c) as (Ek & _ & Hkv).
  assert (∀ l', (∀ a, a ∈ l' → a ∈ l) → fully_indexed (get k c).1 l') as Hall.
  { intros l' Hsub a Ha. destruct (Hkv a) as [-> _]. rewrite Ek.
    by apply Hfi, Hsub. }
  destruct (__keys c !! k) as [a|].
  - destruct Hg as (l1 & l2 & -> & Hc' & _). eexists. split; [done|].
    apply Hall. intros b. rewrite !elem_of_app, !elem_of_cons, elem_of_nil.
    tauto.
  - destruct Hg as [_ Hc']. exists l. split; [done|]. by apply Hall.
Qed.

Lemma fully_indexed_put k v c l :
  plain_key k = true → chain_inv c l → fully_indexed c l →
  __keys c !! k = None →
  ∃ l', chain_inv (put k v c).1 l' ∧ fully_indexed (put k v c).1 l'.
Proof.
  intros Hpk Hc Hfi Hk.
  destruct (put_effect k v c l Hpk Hc) as (l' & Hc' & Hkv & Hnk & _ & H).
  exists (l' ++ [length (store c)]). split; [done|].
  assert (∀ b, b ∈ l → key (deref c b) ≠ k) as Hfresh.
  { intros b Hb Heq. apply Hfi in Hb. congruence. }
  intros b [Hb| ->%list_elem_of_singleton]%elem_of_app.
  - destruct (decide (VNum (__size c) = __maxSize c)).
    + destruct H as (a0 & -> & _ & -> & _).
      assert (b ∈ a0 :: l') as Hb' by (apply elem_of_cons; by right).
      destruct (Hkv b Hb') as [-> _].
      assert (a0 ∈ a0 :: l') as Ha0 by (apply elem_of_cons; by left).
      rewrite lookup_delete_ne, lookup_insert_ne;
        [by apply Hfi|by apply not_eq_sym, Hfresh|].
      intros Heq. pose proof (Hfi _ Ha0) as E0. pose proof (Hfi _ Hb') as Eb.
      rewrite Heq in E0. assert (a0 = b) as -> by congruence.
      pose proof (linked_nodup _ _ (inv_linked _ _ Hc)) as Hnd.
      by apply NoDup_cons in Hnd as [? _].
    + destruct H as (-> & _ & -> & _). destruct (Hkv b Hb) as [-> _].
      rewrite lookup_insert_ne; [by apply Hfi|by apply not_eq_sym, Hfresh].
  - rewrite Hnk. destruct (decide (VNum (__size c) = __maxSize c)).
    + destruct H as (a0 & -> & _ & -> & _).
      assert (a0 ∈ a0 :: l') as Ha0 by (apply elem_of_cons; by left).
      rewrite lookup_delete_ne by (by apply Hfresh).
      by rewrite lookup_insert_eq.
    + destruct H as (-> & _ & -> & _). by rewrite lookup_insert_eq.
Qed.

Lemma overwrite_free_run ops c0 l0 :
  forallb plain_op ops = true →
  chain_inv c0 l0 → fully_indexed c0 l0 → overwrite_free ops c0 = true →
  ∃ l, chain_inv (run ops c0) l ∧ fully_indexed (run ops c0) l.
Proof.
  revert c0 l0. induction ops as [|o ops IH]; intros c0 l0 Hops Hc Hfi Hof.
  { by exists l0. }
  simpl in Hops. apply andb_prop in Hops as [Ho Hops].
  simpl in Hof. apply andb_prop in Hof as [Hguard Hof].
  rewrite run_cons.
  destruct o as [k|k v| | | | | | | |]; try (by eapply IH).
  - rewrite exec_get in *.
    destruct (fully_indexed_get k c0 l0 Ho Hc Hfi) as (l' & Hc' & Hfi').
    by eapply IH.
  - rewrite exec_put in *. apply bool_decide_eq_true in Hguard.
    destruct (fully_indexed_put k v c0 l0 Ho Hc Hfi Hguard)
      as (l' & Hc' & Hfi').
    by eapply IH.
  - apply (IH (clearAll c0) []); [done|by eapply chain_inv_clearAll| |done].
    intros a Ha. by apply elem_of_nil in Ha.
Qed.

(** X13. After a sequence of operations on plain keys in which no [put]
    is on a key that is present at that moment, [keys()] has no
    duplicate, every listed key is found by [get] with the value listed
    beside it in [values()], and the index holds exactly [size()] keys. *)
Theorem overwrite_free_consistent (m : jsval) (ops : list Op) :
  forallb plain_op ops = true →
  overwrite_free ops (initLRU m) = true →
  let c := run ops (initLRU m) in
  ∃ ks vs,
    keys c = Some (VStr <$> ks) ∧ values c = Some vs ∧
    NoDup ks ∧
    Z.of_nat (length (map_to_list (__keys c))) = size c ∧
    ∀ i k v, ks !! i = Some k → vs !! i = Some v → found k c = Normal v.
Proof.
  intros Hops Hof c.
  destruct (overwrite_free_run ops (initLRU m) [] Hops (chain_inv_initLRU m))
    as (l & Hc & Hfi); [|done|].
  { intros a Ha. by apply elem_of_nil in Ha. }
  fold c in Hc, Hfi.
  exists ((λ a, key (deref c a)) <$> reverse l),
    ((λ a, value (deref c a)) <$> reverse l).
  rewrite (chain_inv_keys c l Hc), (chain_inv_values c l Hc).
  assert (NoDup ((λ a, key (deref c a)) <$> l)) as Hnd.
  { apply NoDup_fmap_2_strong; [|by destruct Hc as [[] _ _]].
    intros a b Ha%Hfi Hb%Hfi Heq. rewrite Heq in Ha. congruence. }
  split_and!; try done.
  - by rewrite <-list_fmap_compose.
  - by rewrite fmap_reverse, reverse_Permutation.
  - apply Z.le_antisymm.
    + by apply (index_bound c l).
    + unfold size. rewrite (inv_size _ _ Hc). apply inj_le.
      rewrite <-(length_fmap (λ a, key (deref c a)) l),
        <-(length_fmap fst (map_to_list (__keys c))).
      apply submseteq_length, NoDup_submseteq; [done|].
      intros k [a [-> Ha%Hfi]]%list_elem_of_fmap.
      apply list_elem_of_fmap. exists (key (deref c a), a). split; [done|].
      by apply elem_of_map_to_list.
  - intros i k v. rewrite !list_lookup_fmap.
    destruct (reverse l !! i) as [a|] eqn:Ha; [|done]. simpl.
    intros [= <-] [= <-].
    assert (a ∈ l) as Hal.
    { apply elem_of_reverse, list_elem_of_lookup. eauto. }
    rewrite (found_index _ c l Hc (linked_keys _ _ (inv_linked _ _ Hc) a Hal)).
    by rewrite (Hfi a Hal).
Qed.

Lemma overwrite_free_consistent_witness :
  let c := run [OPut "a" (VNum 1); OPut "b" (VNum 2); OGet "a";
                OPut "c" (VNum 3); OPut "b" (VNum 4)] (initLRU (VNum 2)) in
  ∃ ks vs,
    keys c = Some (VStr <$> ks) ∧ values c = Some vs ∧
    NoDup ks ∧
    Z.of_nat (length (map_to_list (__keys c))) = size c ∧
    ∀ i k v, ks !! i = Some k → vs !! i = Some v → found k c = Normal v.
Proof.
  apply (overwrite_free_consistent (VNum 2)).
  - reflexivity.
  - by vm_compute.
Defined.

(** *** Names inherited by the index *)

(** X14. On every state, [get] raises exactly when the index lookup
    yields [null]: a [null] field that the index inherits, as after
    [put('__proto__', v)], which makes the new entry the prototype of the
    index. *)
Theorem get_raises_iff (k : string) (c : Cache) :
  (get k c).2 = Raised ↔ index_get k c = VNull.
Proof.
  rewrite get_unfold. cbv zeta.
  destruct (decide (index_get k c = VUndef)) as [->|Hu]; [done|].
  destruct (decide (index_get k c = __newest c)) as [He|Hn];
    destruct (index_get k c); done.
Qed.

Lemma get_raises_iff_witness :
  (get "older" (put "__proto__" (VNum 1) (initLRU (VNum 4))).1).2 = Raised.
Proof.
  apply (get_raises_iff "older"
           (put "__proto__" (VNum 1) (initLRU (VNum 4))).1).
  vm_compute. reflexivity.
Defined.

(** X15. [put('__proto__', 1)] on a new cache stores no own property in
    the index: the assignment replaces the prototype of the index by the
    new entry.  The entry is linked and counted, [peek('__proto__')]
    returns it, and its fields are found under the keys [key], [value],
    [older] and [newer]; the names of [Object.prototype] are still
    inherited through it. *)
Theorem put_proto_sets_prototype :
  (let '(c, r) := put "__proto__" (VNum 1) (initLRU (VNum 4)) in
   (r, map_to_list (__keys c), keys_proto c, size c, keys c,
    peek "__proto__" c, peek "key" c, peek "value" c, peek "older" c,
    peek "newer" c, peek "toString" c, peek "a" c))
  = (Normal VUndef, [], Some 0%nat, 1, Some [VStr "__proto__"],
     VEntry 0, VStr "__proto__", VNum 1, VNull, VNull, VFun "toString",
     VUndef).
Proof. by vm_compute. Qed.
